(** * graw: a diagram object model and its style codec

    A shallow embedding of [graw.go] and the properties of its style
    codec ([Style.MarshalXMLAttr], [Style.UnmarshalXMLAttr]) and of its
    builders ([NewGraph], [Add], [NewShape], [NewImage], [NewImageXY]).

    Go values are modelled as follows.
    - [string] is a sequence of bytes: Rocq's [string].
    - [int] is [Z]; the source performs no arithmetic on it.
    - A [map[string]string] is a reference to a map object; a [*Cell], a
      [*Geometry], a [*Point] and a [*GraphModel] are references to objects
      of those types.  References are [option loc], [None] being [nil], and
      the objects live in the stores of a [heap].
    - A [[]Cell] is a slice: the address of its backing array, the index
      of its first element in that array, its length and its capacity.  The
      arrays live in the heap, so that two slices can share one, and
      [append] writes into the array when the capacity allows and moves to
      a new array when it does not.  The capacity of a new array is the
      run time's choice, [growslice], from the old capacity and the length
      needed.
    - A [*Cell] points to a cell allocated on its own, as [newCell] and
      the address of a variable give, not to a slot of the array behind a
      slice.
    - Code that allocates, loads or stores runs in the monad [M], which
      threads the heap and stops at a run-time panic. *)

From Stdlib Require Import Ascii ZArith.
From stdpp Require Import base option list strings gmap fin_maps.

(** ** Run-time outcomes *)

Inductive panic : Type :=
  | NilDereference    (* load or store through a nil pointer *)
  | NilMapAssign      (* assignment to an entry of a nil map *)
  | IndexOutOfRange   (* index expression outside the slice *)
  | InvalidReference. (* a reference to no object: no Go program has one *)

Inductive outcome (A : Type) : Type :=
  | Returns (a : A)
  | Panics (p : panic).
Arguments Returns {A} a.
Arguments Panics {A} p.

(** Addresses of heap objects. *)
Abbreviation loc := positive.

(** Go's [error] interface; [None] is [nil]. *)
Definition error : Type := option string.
Definition nil_error : error := None.

(** ** encoding/xml: the two types the source uses *)

Module xml.
Record Name : Type := mkName { Space : string; Local : string }.
Record Attr : Type := mkAttr { Name_ : Name; Value : string }.
Definition zero_Name : Name := {| Space := ""; Local := "" |}.
End xml.

(** ** The data model of graw.go *)

Definition topCellId : string := "0".
Definition rootCellID : string := "1".

Module Style.
Record t : Type := mk { Attributes : option loc }.
Definition zero : t := {| Attributes := None |}.
Definition set_Attributes (m : option loc) (a : t) : t :=
  {| Attributes := m |}.
End Style.

Module Point.
Record t : Type := mk {
  XMLName : xml.Name;
  X : Z;
  Y : Z;
  As : string }.
End Point.

Module Geometry.
Record t : Type := mk {
  XMLName : xml.Name;
  X : Z;
  Y : Z;
  Width : string;
  Height : string;
  Relative : string;
  As : string;
  Point : option loc }.
Definition set_X (x : Z) (g : t) : t :=
  {| XMLName := XMLName g; X := x; Y := Y g; Width := Width g;
     Height := Height g; Relative := Relative g; As := As g;
     Point := Point g |}.
End Geometry.

Module Cell.
Record t : Type := mk {
  XMLName : xml.Name;
  ID : string;
  Value : string;
  Style : Style.t;
  ParentID : string;
  Vertex : string;
  Edge : string;
  Source : string;
  Target : string;
  Geometry : option loc }.
Definition zero : t :=
  {| XMLName := xml.zero_Name; ID := ""; Value := ""; Style := Style.zero;
     ParentID := ""; Vertex := ""; Edge := ""; Source := ""; Target := "";
     Geometry := None |}.
Definition set_Value (v : string) (c : t) : t :=
  {| XMLName := XMLName c; ID := ID c; Value := v; Style := Style c;
     ParentID := ParentID c; Vertex := Vertex c; Edge := Edge c;
     Source := Source c; Target := Target c; Geometry := Geometry c |}.
Definition set_Style (a : Style.t) (c : t) : t :=
  {| XMLName := XMLName c; ID := ID c; Value := Value c; Style := a;
     ParentID := ParentID c; Vertex := Vertex c; Edge := Edge c;
     Source := Source c; Target := Target c; Geometry := Geometry c |}.
Definition set_Vertex (v : string) (c : t) : t :=
  {| XMLName := XMLName c; ID := ID c; Value := Value c; Style := Style c;
     ParentID := ParentID c; Vertex := v; Edge := Edge c;
     Source := Source c; Target := Target c; Geometry := Geometry c |}.
Definition set_Geometry (g : option loc) (c : t) : t :=
  {| XMLName := XMLName c; ID := ID c; Value := Value c; Style := Style c;
     ParentID := ParentID c; Vertex := Vertex c; Edge := Edge c;
     Source := Source c; Target := Target c; Geometry := g |}.
End Cell.

(** A [[]Cell]: the address of the array behind it, the index in that
    array of its first element, its length and its capacity.  The nil slice
    has no array. *)
Module Slice.
Record t : Type := mk {
  array : option loc;
  off : nat;
  len : nat;
  cap : nat }.
Definition zero : t := {| array := None; off := 0; len := 0; cap := 0 |}.
End Slice.

Module GraphModel.
Record t : Type := mk {
  XMLName : xml.Name;
  Dx : Z;
  Dy : Z;
  Grid : string;
  GridSize : string;
  Guides : string;
  Tooltips : string;
  Connect : string;
  Arrows : string;
  Fold : string;
  Page : string;
  PageScale : string;
  PageWidth : string;
  PageHeight : string;
  Background : string;
  Math : string;
  Shadow : string;
  Root : Slice.t }.
Definition set_Root (r : Slice.t) (g : t) : t :=
  {| XMLName := XMLName g; Dx := Dx g; Dy := Dy g; Grid := Grid g;
     GridSize := GridSize g; Guides := Guides g; Tooltips := Tooltips g;
     Connect := Connect g; Arrows := Arrows g; Fold := Fold g;
     Page := Page g; PageScale := PageScale g; PageWidth := PageWidth g;
     PageHeight := PageHeight g; Background := Background g;
     Math := Math g; Shadow := Shadow g; Root := r |}.
End GraphModel.

(** ** The heap *)

(** The stores of the objects, by kind, and [growslice]: the capacity the
    run time gives to the array [append] allocates, from the capacity of
    the slice that is full and the length needed. *)
Record heap : Type := Heap {
  maps : gmap loc (gmap string string);
  points : gmap loc Point.t;
  geometries : gmap loc Geometry.t;
  cells : gmap loc Cell.t;
  arrays : gmap loc (list Cell.t);
  graphs : gmap loc GraphModel.t;
  growslice : nat → nat → nat }.

(** A growth of capacities: twice the old capacity, or the length needed
    when that is more. *)
Definition double_growslice (old_cap needed : nat) : nat :=
  Nat.max needed (2 * old_cap).

Definition empty_heap : heap :=
  {| maps := ∅; points := ∅; geometries := ∅; cells := ∅; arrays := ∅;
     graphs := ∅; growslice := double_growslice |}.

Definition with_maps (f : gmap loc (gmap string string)) (h : heap) : heap :=
  {| maps := f; points := points h; geometries := geometries h;
     cells := cells h; arrays := arrays h; graphs := graphs h;
     growslice := growslice h |}.
Definition with_geometries (f : gmap loc Geometry.t) (h : heap) : heap :=
  {| maps := maps h; points := points h; geometries := f;
     cells := cells h; arrays := arrays h; graphs := graphs h;
     growslice := growslice h |}.
Definition with_cells (f : gmap loc Cell.t) (h : heap) : heap :=
  {| maps := maps h; points := points h; geometries := geometries h;
     cells := f; arrays := arrays h; graphs := graphs h;
     growslice := growslice h |}.
Definition with_arrays (f : gmap loc (list Cell.t)) (h : heap) : heap :=
  {| maps := maps h; points := points h; geometries := geometries h;
     cells := cells h; arrays := f; graphs := graphs h;
     growslice := growslice h |}.
Definition with_graphs (f : gmap loc GraphModel.t) (h : heap) : heap :=
  {| maps := maps h; points := points h; geometries := geometries h;
     cells := cells h; arrays := arrays h; graphs := f;
     growslice := growslice h |}.

(** ** The monad of heap-threading, panicking computations *)

Definition M (A : Type) : Type := heap → outcome (A * heap).

#[global] Instance M_ret : MRet M := λ A a h, Returns (a, h).
#[global] Instance M_bind : MBind M := λ A B f m h,
  match m h with
  | Returns (a, h') => f a h'
  | Panics p => Panics p
  end.

Definition throw {A : Type} (p : panic) : M A := λ _, Panics p.

(** [for _, x := range l { body x }] over a slice. *)
Fixpoint for_range {A : Type} (l : list A) (body : A → M unit) : M unit :=
  match l with
  | [] => mret ()
  | x :: l' => body x ;; for_range l' body
  end.

(** [kv[i]] *)
Definition index (kv : list string) (i : nat) : M string :=
  match kv !! i with
  | Some x => mret x
  | None => throw IndexOutOfRange
  end.

(** *** Maps *)

(** [make(map[string]string)] *)
Definition make_map : M (option loc) := λ h,
  let l := fresh (dom (maps h)) in
  Returns (Some l, with_maps (<[l := ∅]> (maps h)) h).

(** [m[k] = v] *)
Definition map_assign (m : option loc) (k v : string) : M unit := λ h,
  match m with
  | None => Panics NilMapAssign
  | Some l =>
      match maps h !! l with
      | Some entries =>
          Returns ((), with_maps (<[l := <[k := v]> entries]> (maps h)) h)
      | None => Panics InvalidReference
      end
  end.

(** [map[string]string{k1: v1, ...}] *)
Definition map_literal (entries : list (string * string)) : M (option loc) :=
  m ← make_map;
  for_range entries (λ kv, map_assign m kv.1 kv.2) ;;
  mret m.

(** The entries of the map a reference denotes; a nil map has none. *)
Definition map_entries (h : heap) (m : option loc)
  : option (gmap string string) :=
  match m with
  | None => Some ∅
  | Some l => maps h !! l
  end.

Definition style_entries (h : heap) (a : Style.t)
  : option (gmap string string) :=
  map_entries h (Style.Attributes a).

(** *** Objects behind pointers *)

Definition deref {A : Type} (store : heap → gmap loc A) (p : option loc)
  : M A := λ h,
  match p with
  | None => Panics NilDereference
  | Some l =>
      match store h !! l with
      | Some x => Returns (x, h)
      | None => Panics InvalidReference
      end
  end.

(** [&Geometry{...}] *)
Definition alloc_Geometry (g : Geometry.t) : M (option loc) := λ h,
  let l := fresh (dom (geometries h)) in
  Returns (Some l, with_geometries (<[l := g]> (geometries h)) h).

(** [&Cell{...}] *)
Definition alloc_Cell (c : Cell.t) : M (option loc) := λ h,
  let l := fresh (dom (cells h)) in
  Returns (Some l, with_cells (<[l := c]> (cells h)) h).

Definition load_Geometry : option loc → M Geometry.t := deref geometries.
Definition load_Cell : option loc → M Cell.t := deref cells.
Definition load_GraphModel : option loc → M GraphModel.t := deref graphs.

Definition store_Geometry (p : option loc) (g : Geometry.t) : M unit := λ h,
  match p with
  | None => Panics NilDereference
  | Some l =>
      match geometries h !! l with
      | Some _ => Returns ((), with_geometries (<[l := g]> (geometries h)) h)
      | None => Panics InvalidReference
      end
  end.

Definition store_Cell (p : option loc) (c : Cell.t) : M unit := λ h,
  match p with
  | None => Panics NilDereference
  | Some l =>
      match cells h !! l with
      | Some _ => Returns ((), with_cells (<[l := c]> (cells h)) h)
      | None => Panics InvalidReference
      end
  end.

Definition store_GraphModel (p : option loc) (g : GraphModel.t) : M unit := λ h,
  match p with
  | None => Panics NilDereference
  | Some l =>
      match graphs h !! l with
      | Some _ => Returns ((), with_graphs (<[l := g]> (graphs h)) h)
      | None => Panics InvalidReference
      end
  end.

(** [p.F = v]: an assignment to one field of the object behind [p]. *)
Definition assign_Geometry (p : option loc) (set : Geometry.t → Geometry.t)
  : M unit :=
  g ← load_Geometry p; store_Geometry p (set g).
Definition assign_Cell (p : option loc) (set : Cell.t → Cell.t) : M unit :=
  c ← load_Cell p; store_Cell p (set c).

(** *** Slices of cells *)

(** The elements of a slice: those of its array from [off], [len] of
    them. *)
Definition slice_elems (h : heap) (s : Slice.t) : option (list Cell.t) :=
  match Slice.array s with
  | None => if decide (Slice.len s = 0%nat) then Some [] else None
  | Some l =>
      match arrays h !! l with
      | Some arr =>
          if decide (Slice.off s + Slice.len s ≤ length arr)%nat
          then Some (take (Slice.len s) (drop (Slice.off s) arr))
          else None
      | None => None
      end
  end.

(** What holds of every slice of a Go program: its length is within its
    capacity and its capacity within its array; the nil slice has length
    and capacity 0. *)
Definition slice_ok (h : heap) (s : Slice.t) : Prop :=
  (Slice.len s ≤ Slice.cap s)%nat ∧
  match Slice.array s with
  | None => Slice.cap s = 0%nat
  | Some l =>
      ∃ arr, arrays h !! l = Some arr ∧
             (Slice.off s + Slice.cap s ≤ length arr)%nat
  end.

(** [[]Cell{c1, ...}]: a new array that holds the cells, and the slice of
    all of it. *)
Definition alloc_array (elems : list Cell.t) : M Slice.t := λ h,
  let l := fresh (dom (arrays h)) in
  Returns ({| Slice.array := Some l; Slice.off := 0;
              Slice.len := length elems; Slice.cap := length elems |},
           with_arrays (<[l := elems]> (arrays h)) h).

(** [append(s, x)].  With room in the array behind [s], [x] is written
    behind the last element of [s], in that array; without, the elements
    and [x] move to a new array, whose capacity is the one [growslice]
    gives and at least the length needed, the slots left being zero. *)
Definition append (s : Slice.t) (x : Cell.t) : M Slice.t := λ h,
  if decide (Slice.len s < Slice.cap s)%nat then
    match Slice.array s with
    | Some l =>
        match arrays h !! l with
        | Some arr =>
            if decide (Slice.off s + Slice.len s < length arr)%nat then
              Returns ({| Slice.array := Some l; Slice.off := Slice.off s;
                          Slice.len := S (Slice.len s);
                          Slice.cap := Slice.cap s |},
                       with_arrays
                         (<[l := <[(Slice.off s + Slice.len s)%nat := x]> arr]>
                            (arrays h)) h)
            else Panics InvalidReference
        | None => Panics InvalidReference
        end
    | None => Panics InvalidReference
    end
  else
    match slice_elems h s with
    | Some elems =>
        let needed := S (Slice.len s) in
        let new_cap := Nat.max needed (growslice h (Slice.cap s) needed) in
        let l := fresh (dom (arrays h)) in
        Returns ({| Slice.array := Some l; Slice.off := 0;
                    Slice.len := needed; Slice.cap := new_cap |},
                 with_arrays
                   (<[l := elems ++ [x] ++
                             replicate (new_cap - needed) Cell.zero]>
                      (arrays h)) h)
    | None => Panics InvalidReference
    end.

(** ** strings.Split

    [strings.Split(s, sep)] of Go's standard library for a separator of
    one byte, which is how the source calls it (";" and "="): the pieces
    of [s] between the occurrences of [sep], in order.  A string without
    the separator, the empty string too, gives one piece. *)

Fixpoint Split (s : string) (sep : ascii) : list string :=
  match s with
  | EmptyString => [""]
  | String c s' =>
      if decide (c = sep) then "" :: Split s' sep
      else match Split s' sep with
           | piece :: pieces => String c piece :: pieces
           | [] => [String c ""]
           end
  end.

(** ** The style codec *)

(** The body of the loop of [MarshalXMLAttr], run over the entries in the
    order in which [range] yields them, from [var text string]. *)
Definition MarshalXMLAttr_loop (entries : list (string * string)) : string :=
  foldl (λ text kv,
           let text := text +:+ kv.1 in
           let text := if decide (kv.2 ≠ "")
                       then (text +:+ "=") +:+ kv.2
                       else text in
           text +:+ ";")
        "" entries.

(** [for k, v := range m] visits every entry of the map once, in an order
    the language leaves unspecified; a nil map has no entry. *)
Definition range_yields (h : heap) (m : option loc)
  (entries : list (string * string)) : Prop :=
  ∃ mp, map_entries h m = Some mp ∧ entries ≡ₚ map_to_list mp.

(** [func (a Style) MarshalXMLAttr(name xml.Name) (xml.Attr, error)]:
    a relation, as the order of iteration is not determined. *)
Definition MarshalXMLAttr (a : Style.t) (name : xml.Name) (h : heap)
  (result : xml.Attr * error) : Prop :=
  ∃ entries,
    range_yields h (Style.Attributes a) entries ∧
    result = ({| xml.Name_ := {| xml.Space := ""; xml.Local := "style" |};
                 xml.Value := MarshalXMLAttr_loop entries |}, nil_error).

(** [func (a *Style) UnmarshalXMLAttr(attr xml.Attr) error].  The receiver
    points to a [Style] held in a variable or in a field of a cell: the
    function takes the value of [*a] and returns it as the call leaves
    it, next to the error. *)
Definition UnmarshalXMLAttr (a : Style.t) (attr : xml.Attr)
  : M (Style.t * error) :=
  m ← make_map;
  let a := Style.set_Attributes m a in
  let pairs := Split (xml.Value attr) ";"%char in
  for_range pairs (λ pair,
    let kv := Split pair "="%char in
    let kv := if decide (length kv < 2)%nat then kv ++ [""] else kv in
    k ← index kv 0;
    v ← index kv 1;
    map_assign (Style.Attributes a) k v) ;;
  mret (a, nil_error).

(** ** Builders *)

(** [func newCell(id string, layerId string) *Cell] *)
Definition newCell (id layerId : string) : M (option loc) :=
  alloc_Cell
    {| Cell.XMLName := xml.zero_Name; Cell.ID := id; Cell.Value := "";
       Cell.Style := Style.zero; Cell.ParentID := layerId;
       Cell.Vertex := ""; Cell.Edge := ""; Cell.Source := "";
       Cell.Target := ""; Cell.Geometry := None |}.

(** [func newGeometry() *Geometry] *)
Definition newGeometry : M (option loc) :=
  alloc_Geometry
    {| Geometry.XMLName := xml.zero_Name; Geometry.X := 10; Geometry.Y := 10;
       Geometry.Width := ""; Geometry.Height := "";
       Geometry.Relative := ""; Geometry.As := "geometry";
       Geometry.Point := None |}.

(** [func NewGraph() GraphModel] *)
Definition NewGraph : M GraphModel.t :=
  m ← make_map;
  let rootStyle := {| Style.Attributes := m |} in
  map_assign (Style.Attributes rootStyle) "html" "1" ;;
  root ← alloc_array
    [ {| Cell.XMLName := xml.zero_Name; Cell.ID := topCellId;
         Cell.Value := ""; Cell.Style := rootStyle;
         Cell.ParentID := ""; Cell.Vertex := ""; Cell.Edge := "";
         Cell.Source := ""; Cell.Target := ""; Cell.Geometry := None |};
      {| Cell.XMLName := xml.zero_Name; Cell.ID := rootCellID;
         Cell.Value := ""; Cell.Style := rootStyle;
         Cell.ParentID := topCellId; Cell.Vertex := ""; Cell.Edge := "";
         Cell.Source := ""; Cell.Target := "";
         Cell.Geometry := None |} ];
  mret
    {| GraphModel.XMLName := xml.zero_Name;
       GraphModel.Dx := 640;
       GraphModel.Dy := 480;
       GraphModel.Grid := ""; GraphModel.GridSize := "";
       GraphModel.Guides := ""; GraphModel.Tooltips := "";
       GraphModel.Connect := ""; GraphModel.Arrows := "";
       GraphModel.Fold := ""; GraphModel.Page := "";
       GraphModel.PageScale := ""; GraphModel.PageWidth := "";
       GraphModel.PageHeight := ""; GraphModel.Background := "";
       GraphModel.Math := ""; GraphModel.Shadow := "";
       GraphModel.Root := root |}.

(** [func (g *GraphModel) Add(c *Cell) *GraphModel] *)
Definition Add (g : option loc) (c : option loc) : M (option loc) :=
  gv ← load_GraphModel g;
  cv ← load_Cell c;
  root ← append (GraphModel.Root gv) cv;
  store_GraphModel g (GraphModel.set_Root root gv) ;;
  mret g.

(** [func NewShape(id, layerId string) *Cell] *)
Definition NewShape (id layerId : string) : M (option loc) :=
  s ← newCell id layerId;
  assign_Cell s (Cell.set_Vertex "1") ;;
  geometry ← newGeometry;
  assign_Cell s (Cell.set_Geometry geometry) ;;
  mret s.

(** [func NewImage(id, layerId, url string) *Cell] *)
Definition NewImage (id layerId url : string) : M (option loc) :=
  i ← NewShape id layerId;
  attributes ← map_literal
    [("shape", "image"); ("imageAspect", "0"); ("image", url)];
  assign_Cell i (Cell.set_Style {| Style.Attributes := attributes |}) ;;
  mret i.

(** [func NewImageXY(id, layerId, url string, x int, y int) *Cell] *)
Definition NewImageXY (id layerId url : string) (x y : Z) : M (option loc) :=
  i ← NewImage id layerId url;
  iv ← load_Cell i;
  assign_Geometry (Cell.Geometry iv) (Geometry.set_X x) ;;
  iv ← load_Cell i;
  assign_Geometry (Cell.Geometry iv) (Geometry.set_X y) ;;
  mret i.

(** * Definitions of the statements *)

(** ** Strings *)

(** [has_byte c s]: the byte [c] occurs in [s]. *)
Fixpoint has_byte (c : ascii) (s : string) : bool :=
  match s with
  | EmptyString => false
  | String c' s' => if decide (c' = c) then true else has_byte c s'
  end.

(** Neither ';' nor '=' occurs in the string. *)
Definition separator_free (s : string) : Prop :=
  has_byte ";" s = false ∧ has_byte "=" s = false.

(** The text of [s] before the first [sep], all of [s] if it has none. *)
Fixpoint before (sep : ascii) (s : string) : string :=
  match s with
  | EmptyString => ""
  | String c s' => if decide (c = sep) then "" else String c (before sep s')
  end.

(** The text of [s] after the first [sep], if [s] has one. *)
Fixpoint after (sep : ascii) (s : string) : option string :=
  match s with
  | EmptyString => None
  | String c s' => if decide (c = sep) then Some s' else after sep s'
  end.

(** ** Decoding *)

(** The key of a fragment: its text before the first '='. *)
Definition fragment_key (fragment : string) : string :=
  before "=" fragment.

(** The value of a fragment: the text between its first and its second
    '=' (up to its end if there is no second one), and the empty string
    if the fragment has no '='. *)
Definition fragment_value (fragment : string) : string :=
  match after "=" fragment with
  | Some rest => before "=" rest
  | None => ""
  end.

(** The entry of a fragment, written over what the map holds under its
    key. *)
Definition store_fragment (m : gmap string string) (fragment : string)
  : gmap string string :=
  <[fragment_key fragment := fragment_value fragment]> m.

(** The map built from the fragments of an attribute value, first to
    last. *)
Definition decode_fragments (s : string) : gmap string string :=
  foldl store_fragment ∅ (Split s ";").

(** The decoding as the specification words it: the key of a fragment is
    its text before the first '=' and its value everything after that
    '='. *)
Definition claimed_value (fragment : string) : string :=
  default "" (after "=" fragment).

Definition decode_as_claimed (s : string) : gmap string string :=
  foldl (λ m fragment, <[before "=" fragment := claimed_value fragment]> m)
        ∅ (Split s ";").

(** ** Encoding *)

(** One entry as the specification renders it: "key;" when the value is
    empty and "key=value;" otherwise, the bytes of key and value as they
    are. *)
Definition render_entry (kv : string * string) : string :=
  if decide (kv.2 = "") then kv.1 +:+ ";"
  else kv.1 +:+ "=" +:+ kv.2 +:+ ";".

(** The renderings of the entries, one after the other. *)
Definition render_entries (entries : list (string * string)) : string :=
  foldr (λ kv text, render_entry kv +:+ text) "" entries.

(** The fragment an entry is rendered as, without its terminating ';'. *)
Definition entry_fragment (kv : string * string) : string :=
  if decide (kv.2 = "") then kv.1 else kv.1 +:+ "=" +:+ kv.2.

(** The attribute [MarshalXMLAttr] returns for a text. *)
Definition style_attr (text : string) : xml.Attr :=
  {| xml.Name_ := {| xml.Space := ""; xml.Local := "style" |};
     xml.Value := text |}.

(** ** Cells and geometries *)

(** A cell with an id, a parent and a style, and zero elsewhere. *)
Definition plain_cell (id parentId : string) (style : Style.t) : Cell.t :=
  {| Cell.XMLName := xml.zero_Name; Cell.ID := id; Cell.Value := "";
     Cell.Style := style; Cell.ParentID := parentId; Cell.Vertex := "";
     Cell.Edge := ""; Cell.Source := ""; Cell.Target := "";
     Cell.Geometry := None |}.

(** A vertex cell with the zero style. *)
Definition shape_cell (id parentId : string) (geometry : option loc) : Cell.t :=
  {| Cell.XMLName := xml.zero_Name; Cell.ID := id; Cell.Value := "";
     Cell.Style := Style.zero; Cell.ParentID := parentId;
     Cell.Vertex := "1"; Cell.Edge := ""; Cell.Source := "";
     Cell.Target := ""; Cell.Geometry := geometry |}.

(** The geometry of a new shape. *)
Definition default_geometry : Geometry.t :=
  {| Geometry.XMLName := xml.zero_Name; Geometry.X := 10; Geometry.Y := 10;
     Geometry.Width := ""; Geometry.Height := ""; Geometry.Relative := "";
     Geometry.As := "geometry"; Geometry.Point := None |}.

(** The style of an image: {shape: image, imageAspect: 0, image: url}. *)
Definition image_style (url : string) : gmap string string :=
  {[ "shape" := "image"; "imageAspect" := "0"; "image" := url ]}.

(** ** Sample heaps *)

(** A heap with one map, the style {rounded: 1}, at address 1. *)
Definition one_style_heap : heap :=
  with_maps {[ 1%positive := {[ "rounded" := "1" ]} ]} empty_heap.

Definition sample_cell : Cell.t := shape_cell "n1" "1" None.

(** A graph model with the canvas of [NewGraph] and the given cells. *)
Definition graph_with_root (root : Slice.t) : GraphModel.t :=
  {| GraphModel.XMLName := xml.zero_Name;
     GraphModel.Dx := 640; GraphModel.Dy := 480;
     GraphModel.Grid := ""; GraphModel.GridSize := "";
     GraphModel.Guides := ""; GraphModel.Tooltips := "";
     GraphModel.Connect := ""; GraphModel.Arrows := "";
     GraphModel.Fold := ""; GraphModel.Page := "";
     GraphModel.PageScale := ""; GraphModel.PageWidth := "";
     GraphModel.PageHeight := ""; GraphModel.Background := "";
     GraphModel.Math := ""; GraphModel.Shadow := "";
     GraphModel.Root := root |}.

(** The slice of the first [len] cells of the array at [l], which has
    room for [cap]. *)
Definition slice_of (l : loc) (len cap : nat) : Slice.t :=
  {| Slice.array := Some l; Slice.off := 0; Slice.len := len;
     Slice.cap := cap |}.

Definition sample_graph : GraphModel.t :=
  graph_with_root (slice_of 1%positive 2 2).

(** A heap with a graph model of two cells at address 1, whose array is
    full, and a cell at address 2. *)
Definition sample_heap : heap :=
  {| maps := ∅; points := ∅; geometries := ∅;
     cells := {[ 2%positive := sample_cell ]};
     arrays := {[ 1%positive := [plain_cell "0" "" Style.zero;
                                 plain_cell "1" "0" Style.zero] ]};
     graphs := {[ 1%positive := sample_graph ]};
     growslice := double_growslice |}.

(** A heap with two graph models, at addresses 1 and 2, that are copies
    of one another: both hold the first three cells of the array at
    address 1, which has room for four.  The cells at addresses 1 and 2
    are in no graph model. *)
Definition shared_heap : heap :=
  {| maps := ∅; points := ∅; geometries := ∅;
     cells := {[ 1%positive := plain_cell "a" "1" Style.zero;
                 2%positive := plain_cell "b" "1" Style.zero ]};
     arrays := {[ 1%positive := [plain_cell "0" "" Style.zero;
                                 plain_cell "1" "0" Style.zero;
                                 plain_cell "x" "1" Style.zero;
                                 Cell.zero] ]};
     graphs := {[ 1%positive := graph_with_root (slice_of 1%positive 3 4);
                  2%positive := graph_with_root (slice_of 1%positive 3 4) ]};
     growslice := double_growslice |}.


(** ** Further string functions *)

(** The number of occurrences of the byte [c] in [s]. *)
Fixpoint count_byte (c : ascii) (s : string) : nat :=
  match s with
  | EmptyString => 0
  | String c' s' => if decide (c' = c) then S (count_byte c s')
                    else count_byte c s'
  end.

(** [strings.Join(pieces, sep)] for a separator of one byte: the pieces
    with [sep] between them. *)
Fixpoint Join (pieces : list string) (sep : ascii) : string :=
  match pieces with
  | [] => ""
  | [piece] => piece
  | piece :: pieces' => piece +:+ String sep (Join pieces' sep)
  end.

(** ** Chained calls *)


(** A heap with an image cell at address 1, with its geometry and its
    style map, and a graph model without cells at address 1. *)
Definition image_heap : heap :=
  {| maps := {[ 1%positive := image_style "u" ]};
     points := ∅;
     geometries := {[ 1%positive := default_geometry ]};
     cells :=
       {[ 1%positive :=
            Cell.set_Style {| Style.Attributes := Some 1%positive |}
              (shape_cell "n1" "1" (Some 1%positive)) ]};
     arrays := ∅;
     graphs := {[ 1%positive := graph_with_root Slice.zero ]};
     growslice := double_growslice |}.

(** * Properties *)

(** ** Strings and [Split] *)

Lemma append_String (c : ascii) (s t : string) :
  String c s +:+ t = String c (s +:+ t).
Proof. reflexivity. Qed.

Lemma append_nil_l (t : string) : "" +:+ t = t.
Proof. reflexivity. Qed.

Lemma append_nil_r (s : string) : s +:+ "" = s.
Proof.
  induction s as [|c s IH]; [done |].
  by rewrite append_String, IH.
Qed.

Lemma append_assoc (s1 s2 s3 : string) :
  (s1 +:+ s2) +:+ s3 = s1 +:+ (s2 +:+ s3).
Proof.
  induction s1 as [|c s1 IH]; [done |].
  by rewrite !append_String, IH.
Qed.

Section Separator.

Variable sep : ascii.

Lemma has_byte_app (s1 s2 : string) :
  has_byte sep (s1 +:+ s2) = has_byte sep s1 || has_byte sep s2.
Proof.
  induction s1 as [|c s1 IH]; [done |].
  rewrite append_String. simpl.
  by destruct (decide (c = sep)).
Qed.

(** [Split] yields the text before the first separator and then the
    pieces of what follows it. *)
Lemma Split_unfold (s : string) :
  Split s sep =
  before sep s :: match after sep s with
                  | Some rest => Split rest sep
                  | None => []
                  end.
Proof.
  induction s as [|c s IH]; simpl; [done |].
  destruct (decide (c = sep)); [done |].
  by rewrite IH.
Qed.

Lemma Split_length (s : string) : (1 ≤ length (Split s sep))%nat.
Proof. rewrite Split_unfold. simpl. lia. Qed.

Lemma before_free (s : string) :
  has_byte sep s = false → before sep s = s.
Proof.
  induction s as [|c s IH]; simpl; [done |].
  destruct (decide (c = sep)); [done |].
  intros H. by rewrite IH.
Qed.

Lemma after_free (s : string) :
  has_byte sep s = false → after sep s = None.
Proof.
  induction s as [|c s IH]; simpl; [done |].
  by destruct (decide (c = sep)).
Qed.

Lemma before_app (s rest : string) :
  has_byte sep s = false → before sep (s +:+ String sep rest) = s.
Proof.
  induction s as [|c s IH]; rewrite ?append_String, ?append_nil_l; simpl.
  - by rewrite decide_True.
  - destruct (decide (c = sep)); [done |].
    intros H. by rewrite IH.
Qed.

Lemma after_app (s rest : string) :
  has_byte sep s = false → after sep (s +:+ String sep rest) = Some rest.
Proof.
  induction s as [|c s IH]; rewrite ?append_String, ?append_nil_l; simpl.
  - by rewrite decide_True.
  - by destruct (decide (c = sep)).
Qed.

Lemma Split_free (s : string) :
  has_byte sep s = false → Split s sep = [s].
Proof.
  intros H. by rewrite Split_unfold, before_free, after_free.
Qed.

Lemma Split_app (s rest : string) :
  has_byte sep s = false →
  Split (s +:+ String sep rest) sep = s :: Split rest sep.
Proof.
  intros H. by rewrite Split_unfold, before_app, after_app.
Qed.

Lemma Split_snoc (s : string) :
  Split (s +:+ String sep "") sep = Split s sep ++ [""].
Proof.
  induction s as [|c s IH]; rewrite ?append_String, ?append_nil_l; simpl.
  - by rewrite decide_True.
  - rewrite IH. pose proof (Split_length s) as Hlen.
    destruct (decide (c = sep)); [reflexivity |].
    destruct (Split s sep); [simpl in Hlen; lia | reflexivity].
Qed.

End Separator.

(** ** Running monadic code *)

Lemma bind_Returns {A B : Type} (m : M A) (f : A → M B) (h h' : heap) (a : A) :
  m h = Returns (a, h') → (m ≫= f) h = f a h'.
Proof. intros H. unfold mbind, M_bind. by rewrite H. Qed.

Lemma map_assign_run (l : loc) (k v : string) (mp : gmap string string)
    (h : heap) :
  maps h !! l = Some mp →
  map_assign (Some l) k v h =
  Returns ((), with_maps (<[l := <[k := v]> mp]> (maps h)) h).
Proof. intros H. unfold map_assign. by rewrite H. Qed.

(** ** What the decoding loop stores for one fragment *)

Lemma fragment_kv (pair : string) :
  let kv := Split pair "=" in
  let kv := if decide (length kv < 2)%nat then kv ++ [""] else kv in
  kv !! 0%nat = Some (fragment_key pair) ∧
  kv !! 1%nat = Some (fragment_value pair).
Proof.
  unfold fragment_key, fragment_value. cbv zeta.
  rewrite (Split_unfold _ pair).
  destruct (after "=" pair) as [rest|]; simpl.
  - rewrite (Split_unfold _ rest). by simpl.
  - done.
Qed.

Lemma decode_loop_run (l : loc) (pairs : list string) :
  ∀ (h : heap) (mp : gmap string string),
    maps h !! l = Some mp →
    for_range pairs (λ pair,
      let kv := Split pair "=" in
      let kv := if decide (length kv < 2)%nat then kv ++ [""] else kv in
      k ← index kv 0;
      v ← index kv 1;
      map_assign (Some l) k v) h =
    Returns ((), with_maps (<[l := foldl store_fragment mp pairs]> (maps h)) h).
Proof.
  induction pairs as [|pair pairs IH]; intros h mp Hl; simpl.
  - unfold mret, M_ret. rewrite insert_id by done. by destruct h.
  - destruct (fragment_kv pair) as [H0 H1]. cbv zeta in H0, H1.
    erewrite bind_Returns; last first.
    { unfold index. rewrite H0. erewrite bind_Returns; [|reflexivity].
      rewrite H1. erewrite bind_Returns; [|reflexivity].
      by apply map_assign_run. }
    erewrite IH; last by (simpl; apply lookup_insert_eq).
    simpl. by rewrite insert_insert_eq.
Qed.

(** [UnmarshalXMLAttr] always returns: it allocates a map, stores what
    [decode_fragments] computes in it, points the style to it and reports
    no error. *)
Lemma UnmarshalXMLAttr_run (a : Style.t) (attr : xml.Attr) (h : heap) :
  let l := fresh (dom (maps h)) in
  UnmarshalXMLAttr a attr h =
  Returns ((Style.set_Attributes (Some l) a, nil_error),
           with_maps (<[l := decode_fragments (xml.Value attr)]> (maps h)) h).
Proof.
  intros l. unfold UnmarshalXMLAttr.
  erewrite bind_Returns; [|reflexivity].
  cbv zeta. simpl Style.Attributes.
  erewrite bind_Returns; last first.
  { apply decode_loop_run. simpl. apply lookup_insert_eq. }
  unfold mret, M_ret. simpl. fold l.
  by rewrite insert_insert_eq.
Qed.

Lemma style_entries_new (l : loc) (m : gmap string string) (a : Style.t)
    (h : heap) :
  style_entries (with_maps (<[l := m]> (maps h)) h)
    (Style.set_Attributes (Some l) a) = Some m.
Proof. unfold style_entries. simpl. apply lookup_insert_eq. Qed.

(** ** The map [decode_fragments] builds *)

(** Last write wins: the value found under a key is that of the last
    fragment with that key. *)
Lemma foldl_store_fragment_lookup (pairs : list string) :
  ∀ (mp : gmap string string) (k : string),
    foldl store_fragment mp pairs !! k =
    match last (filter (λ f, fragment_key f = k) pairs) with
    | Some f => Some (fragment_value f)
    | None => mp !! k
    end.
Proof.
  induction pairs as [|f pairs IH]; intros mp k; simpl; [done |].
  rewrite IH.
  destruct (decide (fragment_key f = k)) as [Hk|Hk].
  - rewrite filter_cons_True by done. rewrite last_cons.
    destruct (last (filter _ pairs)); [done |].
    unfold store_fragment. rewrite Hk. apply lookup_insert_eq.
  - rewrite filter_cons_False by done.
    destruct (last (filter _ pairs)); [done |].
    unfold store_fragment. by apply lookup_insert_ne.
Qed.

Lemma decode_fragments_lookup (s k : string) :
  decode_fragments s !! k =
  fragment_value <$> last (filter (λ f, fragment_key f = k) (Split s ";")).
Proof.
  unfold decode_fragments. rewrite foldl_store_fragment_lookup.
  by destruct (last _).
Qed.

Lemma decode_fragments_snoc (s : string) :
  decode_fragments (s +:+ ";") = <["" := ""]> (decode_fragments s).
Proof.
  unfold decode_fragments. by rewrite Split_snoc, foldl_app.
Qed.

Lemma decode_fragments_nonempty (s : string) : decode_fragments s ≠ ∅.
Proof.
  unfold decode_fragments.
  pose proof (Split_length ";" s) as Hlen.
  destruct (Split s ";") as [|f pairs _] using rev_ind; [simpl in Hlen; lia |].
  rewrite foldl_app. simpl. apply insert_non_empty.
Qed.

Lemma fragment_plain (fragment : string) :
  has_byte "=" fragment = false →
  fragment_key fragment = fragment ∧ fragment_value fragment = "".
Proof.
  intros H. unfold fragment_key, fragment_value.
  by rewrite before_free, after_free.
Qed.

Lemma fragment_pair (k v rest : string) :
  has_byte "=" k = false → has_byte "=" v = false →
  fragment_key (k +:+ "=" +:+ v) = k ∧
  fragment_value (k +:+ "=" +:+ v) = v ∧
  fragment_key (k +:+ "=" +:+ v +:+ "=" +:+ rest) = k ∧
  fragment_value (k +:+ "=" +:+ v +:+ "=" +:+ rest) = v.
Proof.
  intros Hk Hv. unfold fragment_key, fragment_value.
  rewrite !(append_String "=" "").
  rewrite !append_nil_l.
  rewrite !before_app, !after_app by done.
  by rewrite before_free, before_app.
Qed.

(** ** Decoding: [Style.UnmarshalXMLAttr] *)

(** C2, as stated, fails: in "a=b=c" the value stored under "a" is "b",
    the piece between the first two '=', and not "b=c", everything after
    the first '='. *)
Lemma UnmarshalXMLAttr_value_is_second_piece :
  ∃ (a' : Style.t) (h' : heap),
    UnmarshalXMLAttr Style.zero (xml.mkAttr xml.zero_Name "a=b=c")
      empty_heap = Returns ((a', nil_error), h') ∧
    style_entries h' a' = Some {[ "a" := "b" ]} ∧
    decode_as_claimed "a=b=c" = {[ "a" := "b=c" ]} ∧
    style_entries h' a' ≠ Some (decode_as_claimed "a=b=c").
Proof.
  eexists _, _. split; [apply UnmarshalXMLAttr_run |].
  rewrite style_entries_new.
  split; [reflexivity |]. split; [reflexivity |].
  intros Heq. vm_compute in Heq. discriminate.
Qed.

(** C2 (amended): [UnmarshalXMLAttr] splits the input on ';' and stores
    one entry per fragment, in order, so that the last fragment with a key
    wins.  [Split] cuts a fragment at every '=': the key is the piece
    before the first '=' and the value is the second piece, the text
    between the first and the second '=', which is everything after the
    first '=' when the fragment has one '=' only; a fragment with no '='
    has the empty value.  A trailing ';' adds the entry with empty key and
    empty value, as in "a=1;b=2;". *)
Theorem UnmarshalXMLAttr_fragments (a : Style.t) (name : xml.Name)
    (s : string) (h : heap) :
  ∃ (a' : Style.t) (h' : heap) (m : gmap string string),
    UnmarshalXMLAttr a (xml.mkAttr name s) h = Returns ((a', nil_error), h') ∧
    style_entries h' a' = Some m ∧
    m = foldl (λ m f, <[fragment_key f := fragment_value f]> m) ∅
              (Split s ";") ∧
    (∀ k : string,
       m !! k =
       fragment_value <$>
         last (filter (λ f, fragment_key f = k) (Split s ";"))) ∧
    (∀ f : string,
       has_byte "=" f = false → fragment_key f = f ∧ fragment_value f = "") ∧
    (∀ k v rest : string,
       has_byte "=" k = false → has_byte "=" v = false →
       fragment_key (k +:+ "=" +:+ v) = k ∧
       fragment_value (k +:+ "=" +:+ v) = v ∧
       fragment_key (k +:+ "=" +:+ v +:+ "=" +:+ rest) = k ∧
       fragment_value (k +:+ "=" +:+ v +:+ "=" +:+ rest) = v) ∧
    (∃ (a2 : Style.t) (h2 : heap),
       UnmarshalXMLAttr a (xml.mkAttr name (s +:+ ";")) h =
         Returns ((a2, nil_error), h2) ∧
       style_entries h2 a2 = Some (<["" := ""]> m)) ∧
    (∃ (a3 : Style.t) (h3 : heap),
       UnmarshalXMLAttr a (xml.mkAttr name "a=1;b=2;") h =
         Returns ((a3, nil_error), h3) ∧
       style_entries h3 a3 =
         Some (<["" := ""]> (<["b" := "2"]> (<["a" := "1"]> ∅)))).
Proof.
  eexists _, _, (decode_fragments s).
  split; [apply UnmarshalXMLAttr_run |].
  split; [apply style_entries_new |].
  split; [reflexivity |].
  split; [intros k; apply decode_fragments_lookup |].
  split; [apply fragment_plain |].
  split; [apply fragment_pair |].
  split.
  - eexists _, _. split; [apply UnmarshalXMLAttr_run |].
    simpl xml.Value. rewrite decode_fragments_snoc. apply style_entries_new.
  - eexists _, _. split; [apply UnmarshalXMLAttr_run |].
    rewrite style_entries_new. reflexivity.
Qed.

Lemma UnmarshalXMLAttr_fragments_witness :
  has_byte "=" "rounded" = false ∧ has_byte "=" "fillColor" = false ∧
  has_byte "=" "#fff" = false ∧
  fragment_key "rounded" = "rounded" ∧ fragment_value "rounded" = "" ∧
  fragment_key "fillColor=#fff" = "fillColor" ∧
  fragment_value "fillColor=#fff" = "#fff".
Proof.
  destruct (UnmarshalXMLAttr_fragments Style.zero xml.zero_Name
              "rounded;fillColor=#fff" empty_heap)
    as (a' & h' & m & _ & _ & _ & _ & Hplain & Hpair & _).
  split; [reflexivity |]. split; [reflexivity |]. split; [reflexivity |].
  destruct (Hplain "rounded") as [Hk Hv]; [reflexivity |].
  destruct (Hpair "fillColor" "#fff" "") as (Hk' & Hv' & _);
    [reflexivity | reflexivity |].
  repeat split; assumption.
Defined.

(** C9: decoding never fails.  Whatever the style, the attribute and the
    heap, [UnmarshalXMLAttr] returns, with a nil error and a style that
    has a map.  No fragment is rejected: the key of every fragment is a
    key of the map, and an input that is one fragment without '=' is kept
    as a key with the empty string for the missing value. *)
Theorem UnmarshalXMLAttr_never_fails (a : Style.t) (attr : xml.Attr)
    (h : heap) :
  ∃ (a' : Style.t) (h' : heap) (m : gmap string string),
    UnmarshalXMLAttr a attr h = Returns ((a', nil_error), h') ∧
    style_entries h' a' = Some m ∧
    (∀ f : string,
       f ∈ Split (xml.Value attr) ";" → is_Some (m !! fragment_key f)) ∧
    (has_byte ";" (xml.Value attr) = false →
     has_byte "=" (xml.Value attr) = false →
     m = {[ xml.Value attr := "" ]}).
Proof.
  eexists _, _, (decode_fragments (xml.Value attr)).
  split; [apply UnmarshalXMLAttr_run |].
  split; [apply style_entries_new |].
  split.
  - intros f Hf. rewrite decode_fragments_lookup.
    destruct (last (filter (λ f0, fragment_key f0 = fragment_key f)
                      (Split (xml.Value attr) ";"))) as [f'|] eqn:Hlast;
      [by eexists |].
    apply last_None in Hlast.
    assert (f ∈ filter (λ f0, fragment_key f0 = fragment_key f)
                  (Split (xml.Value attr) ";")) as Hmem
      by (by apply list_elem_of_filter).
    rewrite Hlast in Hmem. by apply elem_of_nil in Hmem.
  - intros Hsemi Heq. unfold decode_fragments.
    rewrite Split_free by done. simpl. unfold store_fragment.
    destruct (fragment_plain _ Heq) as [-> ->].
    apply insert_empty.
Qed.

Lemma UnmarshalXMLAttr_never_fails_witness :
  "rounded" ∈ Split "rounded" ";" ∧
  has_byte ";" "rounded" = false ∧ has_byte "=" "rounded" = false ∧
  ∃ (a' : Style.t) (h' : heap),
    UnmarshalXMLAttr Style.zero (xml.mkAttr xml.zero_Name "rounded")
      empty_heap = Returns ((a', nil_error), h') ∧
    style_entries h' a' = Some {[ "rounded" := "" ]} ∧
    is_Some (({[ "rounded" := "" ]} : gmap string string) !! "rounded").
Proof.
  destruct (UnmarshalXMLAttr_never_fails Style.zero
              (xml.mkAttr xml.zero_Name "rounded") empty_heap)
    as (a' & h' & m & Hrun & Hm & Hkeys & Hplain).
  assert ("rounded" ∈ Split "rounded" ";") as Hin by (simpl; apply list_elem_of_here).
  split; [exact Hin |]. split; [reflexivity |]. split; [reflexivity |].
  exists a', h'. split; [exact Hrun |].
  specialize (Hplain eq_refl eq_refl). simpl in Hplain. subst m.
  split; [exact Hm |]. exact (Hkeys "rounded" Hin).
Defined.


(** ** Encoding: [Style.MarshalXMLAttr] *)

Lemma MarshalXMLAttr_loop_from (entries : list (string * string)) :
  ∀ text : string,
    foldl (λ text kv,
             let text := text +:+ kv.1 in
             let text := if decide (kv.2 ≠ "")
                         then (text +:+ "=") +:+ kv.2
                         else text in
             text +:+ ";")
          text entries = text +:+ render_entries entries.
Proof.
  induction entries as [|[k v] entries IH]; intros text; simpl.
  - by rewrite append_nil_r.
  - rewrite IH. unfold render_entry. simpl.
    destruct (decide (v ≠ "")) as [Hv|Hv].
    + rewrite decide_False by done. by rewrite !append_assoc.
    + rewrite decide_True by (by destruct (decide (v = ""))).
      by rewrite !append_assoc.
Qed.

Lemma MarshalXMLAttr_loop_render (entries : list (string * string)) :
  MarshalXMLAttr_loop entries = render_entries entries.
Proof. unfold MarshalXMLAttr_loop. by rewrite MarshalXMLAttr_loop_from. Qed.

(** C8: whatever order the iteration takes, [MarshalXMLAttr] returns the
    attribute named "style" whose value is the concatenation, in that
    order, of the renderings of the entries of the map, each entry once,
    as "key;" or "key=value;" and with no escaping, and a nil error; every
    order of the entries is a possible result.  The empty mapping (a nil
    map too) is encoded as the empty string. *)
Theorem MarshalXMLAttr_renders (a : Style.t) (name : xml.Name) (h : heap)
    (m : gmap string string) :
  style_entries h a = Some m →
  (∀ entries : list (string * string),
     entries ≡ₚ map_to_list m →
     MarshalXMLAttr a name h (style_attr (render_entries entries), nil_error)) ∧
  (∀ result : xml.Attr * error,
     MarshalXMLAttr a name h result →
     ∃ entries : list (string * string),
       entries ≡ₚ map_to_list m ∧
       (∀ k v : string, (k, v) ∈ entries ↔ m !! k = Some v) ∧
       NoDup entries ∧
       result = (style_attr (render_entries entries), nil_error)) ∧
  (m = ∅ →
   ∀ result : xml.Attr * error,
     MarshalXMLAttr a name h result → result = (style_attr "", nil_error)).
Proof.
  intros Hm.
  assert (∀ result, MarshalXMLAttr a name h result →
            ∃ entries, entries ≡ₚ map_to_list m ∧
              result = (style_attr (render_entries entries), nil_error))
    as Hresult.
  { intros result (entries & (mp & Hmp & Hperm) & ->).
    unfold style_entries in Hm. rewrite Hm in Hmp. injection Hmp as <-.
    exists entries. by rewrite MarshalXMLAttr_loop_render. }
  split; [| split].
  - intros entries Hperm. exists entries.
    split; [by exists m |].
    by rewrite MarshalXMLAttr_loop_render.
  - intros result Hrun.
    destruct (Hresult result Hrun) as (entries & Hperm & ->).
    exists entries. split; [done |]. split; [| split; [| done]].
    + intros k v. rewrite Hperm. apply elem_of_map_to_list.
    + rewrite Hperm. apply NoDup_map_to_list.
  - intros -> result Hrun.
    destruct (Hresult result Hrun) as (entries & Hperm & ->).
    rewrite map_to_list_empty in Hperm.
    by apply Permutation_nil_r in Hperm as ->.
Qed.

Lemma MarshalXMLAttr_renders_witness :
  style_entries one_style_heap {| Style.Attributes := Some 1%positive |} =
    Some {[ "rounded" := "1" ]} ∧
  [("rounded", "1")] ≡ₚ map_to_list ({[ "rounded" := "1" ]} : gmap string string) ∧
  MarshalXMLAttr {| Style.Attributes := Some 1%positive |} xml.zero_Name
    one_style_heap (style_attr "rounded=1;", nil_error) ∧
  (∃ entries : list (string * string),
     (style_attr "rounded=1;", nil_error) =
     (style_attr (render_entries entries), nil_error)) ∧
  style_entries empty_heap Style.zero = Some ∅ ∧
  MarshalXMLAttr Style.zero xml.zero_Name empty_heap
    (style_attr "", nil_error).
Proof.
  assert (style_entries one_style_heap {| Style.Attributes := Some 1%positive |} =
            Some {[ "rounded" := "1" ]}) as Hm by reflexivity.
  assert ([("rounded", "1")] ≡ₚ
          map_to_list ({[ "rounded" := "1" ]} : gmap string string)) as Hperm
    by (rewrite map_to_list_singleton; reflexivity).
  destruct (MarshalXMLAttr_renders _ xml.zero_Name _ _ Hm)
    as (Hany & Hall & _).
  pose proof (Hany _ Hperm) as Hrun.
  destruct (Hall _ Hrun) as (entries & _ & _ & _ & Heq).
  assert (style_entries empty_heap Style.zero = Some ∅) as Hnil by reflexivity.
  destruct (MarshalXMLAttr_renders _ xml.zero_Name _ _ Hnil)
    as (Hany0 & _ & Hempty).
  assert ([] ≡ₚ map_to_list (∅ : gmap string string)) as Hperm0
    by (rewrite map_to_list_empty; reflexivity).
  pose proof (Hany0 _ Hperm0) as Hrun0.
  pose proof (Hempty eq_refl _ Hrun0) as _.
  split; [exact Hm |]. split; [exact Hperm |]. split; [exact Hrun |].
  split; [by exists entries |]. split; [exact Hnil |]. exact Hrun0.
Defined.

(** ** Round trip *)

Lemma render_entry_fragment (kv : string * string) :
  render_entry kv = entry_fragment kv +:+ String ";" "".
Proof.
  unfold render_entry, entry_fragment.
  destruct (decide (kv.2 = "")); [done |].
  by rewrite !append_assoc.
Qed.

Lemma entry_fragment_free (kv : string * string) :
  separator_free kv.1 → separator_free kv.2 →
  has_byte ";" (entry_fragment kv) = false ∧
  fragment_key (entry_fragment kv) = kv.1 ∧
  fragment_value (entry_fragment kv) = kv.2.
Proof.
  intros [Hk1 Hk2] [Hv1 Hv2]. unfold entry_fragment.
  destruct (decide (kv.2 = "")) as [Hv|Hv].
  - rewrite Hv. destruct (fragment_plain _ Hk2) as [-> ->]. done.
  - destruct (fragment_pair kv.1 kv.2 "" Hk2 Hv2) as (-> & -> & _).
    rewrite !has_byte_app, Hk1, Hv1. done.
Qed.

Lemma Split_render_entries (entries : list (string * string)) :
  Forall (λ kv, separator_free kv.1 ∧ separator_free kv.2) entries →
  Split (render_entries entries) ";" = (entry_fragment <$> entries) ++ [""].
Proof.
  induction 1 as [|kv entries [Hk Hv] _ IH]; simpl; [done |].
  rewrite render_entry_fragment, append_assoc, append_String, append_nil_l.
  rewrite Split_app by (by apply entry_fragment_free).
  by rewrite IH.
Qed.

Lemma foldl_store_entry_fragments (entries : list (string * string)) :
  Forall (λ kv, separator_free kv.1 ∧ separator_free kv.2) entries →
  ∀ mp : gmap string string,
    foldl store_fragment mp (entry_fragment <$> entries) =
    foldl (λ m kv, <[kv.1 := kv.2]> m) mp entries.
Proof.
  induction 1 as [|kv entries [Hk Hv] _ IH]; intros mp; simpl; [done |].
  rewrite IH. unfold store_fragment.
  by destruct (entry_fragment_free kv Hk Hv) as (_ & -> & ->).
Qed.

Lemma foldl_insert_list_to_map (entries : list (string * string)) :
  foldl (λ (m : gmap string string) kv, <[kv.1 := kv.2]> m) ∅ entries =
  list_to_map (reverse entries).
Proof.
  induction entries as [|kv entries IH] using rev_ind; [done |].
  rewrite foldl_snoc, reverse_snoc, IH. by destruct kv.
Qed.

(** Decoding the rendering of the entries of a map, taken in any order,
    rebuilds the map and adds the entry of the empty fragment that
    follows the last ';'. *)
Lemma decode_render_entries (m : gmap string string)
    (entries : list (string * string)) :
  (∀ k v : string, m !! k = Some v → separator_free k ∧ separator_free v) →
  entries ≡ₚ map_to_list m →
  decode_fragments (render_entries entries) = <["" := ""]> m.
Proof.
  intros Hfree Hperm.
  assert (Forall (λ kv, separator_free kv.1 ∧ separator_free kv.2) entries)
    as Hall.
  { apply Forall_forall. intros [k v] Hin. simpl.
    apply Hfree. apply elem_of_map_to_list. by rewrite <- Hperm. }
  unfold decode_fragments.
  rewrite Split_render_entries, foldl_app by done. simpl.
  rewrite foldl_store_entry_fragments, foldl_insert_list_to_map by done.
  unfold store_fragment. simpl. f_equal.
  rewrite <- (list_to_map_to_list m). apply list_to_map_proper.
  - rewrite reverse_Permutation, Hperm. apply NoDup_fst_map_to_list.
  - by rewrite reverse_Permutation.
Qed.

Lemma one_style_separator_free (k v : string) :
  ({[ "rounded" := "1" ]} : gmap string string) !! k = Some v →
  separator_free k ∧ separator_free v.
Proof. intros [<- <-]%lookup_singleton_Some. by vm_compute. Qed.

Lemma MarshalXMLAttr_one_style :
  MarshalXMLAttr {| Style.Attributes := Some 1%positive |} xml.zero_Name
    one_style_heap (style_attr "rounded=1;", nil_error).
Proof.
  exists [("rounded", "1")]. split; [| reflexivity].
  exists {[ "rounded" := "1" ]}. split; [reflexivity |].
  by rewrite map_to_list_singleton.
Qed.

(** C1, as stated, fails: the style {rounded: 1} has no ';' and no '=' in
    its key and value and is encoded as "rounded=1;", and decoding that
    does not give {rounded: 1} back, for the empty fragment after the last
    ';' adds an entry. *)
Lemma decode_encode_is_not_identity :
  style_entries one_style_heap {| Style.Attributes := Some 1%positive |} =
    Some {[ "rounded" := "1" ]} ∧
  (∀ k v : string,
     ({[ "rounded" := "1" ]} : gmap string string) !! k = Some v →
     separator_free k ∧ separator_free v) ∧
  MarshalXMLAttr {| Style.Attributes := Some 1%positive |} xml.zero_Name
    one_style_heap (style_attr "rounded=1;", nil_error) ∧
  ∃ (b' : Style.t) (h' : heap),
    UnmarshalXMLAttr Style.zero (style_attr "rounded=1;") empty_heap =
      Returns ((b', nil_error), h') ∧
    style_entries h' b' = Some (<["" := ""]> {[ "rounded" := "1" ]}) ∧
    style_entries h' b' ≠ Some {[ "rounded" := "1" ]}.
Proof.
  split; [reflexivity |].
  split; [apply one_style_separator_free |].
  split; [apply MarshalXMLAttr_one_style |].
  eexists _, _. split; [apply UnmarshalXMLAttr_run |].
  rewrite style_entries_new.
  split; [reflexivity |].
  intros Heq. vm_compute in Heq. discriminate.
Qed.

(** C1 (amended): for a style whose keys and values contain no ';' and no
    '=', decoding any of its encodings yields its mapping with the entry
    from the empty key to the empty value added, in place of what the
    mapping holds under the empty key; the result is the mapping itself
    exactly when it maps the empty key to the empty value. *)
Theorem decode_encode (a : Style.t) (name : xml.Name) (h : heap)
    (m : gmap string string) (result : xml.Attr * error)
    (b : Style.t) (h2 : heap) :
  style_entries h a = Some m →
  (∀ k v : string, m !! k = Some v → separator_free k ∧ separator_free v) →
  MarshalXMLAttr a name h result →
  ∃ (b' : Style.t) (h2' : heap),
    UnmarshalXMLAttr b result.1 h2 = Returns ((b', nil_error), h2') ∧
    style_entries h2' b' = Some (<["" := ""]> m) ∧
    (style_entries h2' b' = Some m ↔ m !! "" = Some "").
Proof.
  intros Hm Hfree (entries & (mp & Hmp & Hperm) & ->).
  unfold style_entries in Hm. rewrite Hm in Hmp. injection Hmp as <-.
  eexists _, _. split; [apply UnmarshalXMLAttr_run |].
  rewrite style_entries_new. simpl.
  rewrite MarshalXMLAttr_loop_render, (decode_render_entries m) by done.
  split; [done |]. split.
  - intros [= Heq]. rewrite <- Heq. apply lookup_insert_eq.
  - intros Hempty. by rewrite insert_id.
Qed.

Lemma decode_encode_witness :
  style_entries one_style_heap {| Style.Attributes := Some 1%positive |} =
    Some {[ "rounded" := "1" ]} ∧
  (∀ k v : string,
     ({[ "rounded" := "1" ]} : gmap string string) !! k = Some v →
     separator_free k ∧ separator_free v) ∧
  MarshalXMLAttr {| Style.Attributes := Some 1%positive |} xml.zero_Name
    one_style_heap (style_attr "rounded=1;", nil_error) ∧
  ∃ (b' : Style.t) (h' : heap),
    UnmarshalXMLAttr Style.zero (style_attr "rounded=1;") empty_heap =
      Returns ((b', nil_error), h') ∧
    style_entries h' b' = Some (<["" := ""]> {[ "rounded" := "1" ]}).
Proof.
  split; [reflexivity |].
  split; [exact one_style_separator_free |].
  split; [exact MarshalXMLAttr_one_style |].
  destruct (decode_encode {| Style.Attributes := Some 1%positive |}
              xml.zero_Name one_style_heap {[ "rounded" := "1" ]}
              (style_attr "rounded=1;", nil_error) Style.zero empty_heap
              eq_refl one_style_separator_free MarshalXMLAttr_one_style)
    as (b' & h' & Hrun & Hm & _).
  exists b', h'. split; [exact Hrun | exact Hm].
Defined.

(** ** Loads, stores and allocations *)

Lemma deref_run {A : Type} (store : heap → gmap loc A) (l : loc) (x : A)
    (h : heap) :
  store h !! l = Some x → deref store (Some l) h = Returns (x, h).
Proof. intros H. unfold deref. by rewrite H. Qed.

Lemma store_Cell_run (l : loc) (old c : Cell.t) (h : heap) :
  cells h !! l = Some old →
  store_Cell (Some l) c h = Returns ((), with_cells (<[l := c]> (cells h)) h).
Proof. intros H. unfold store_Cell. by rewrite H. Qed.

Lemma store_Geometry_run (l : loc) (old g : Geometry.t) (h : heap) :
  geometries h !! l = Some old →
  store_Geometry (Some l) g h =
  Returns ((), with_geometries (<[l := g]> (geometries h)) h).
Proof. intros H. unfold store_Geometry. by rewrite H. Qed.

Lemma store_GraphModel_run (l : loc) (old g : GraphModel.t) (h : heap) :
  graphs h !! l = Some old →
  store_GraphModel (Some l) g h =
  Returns ((), with_graphs (<[l := g]> (graphs h)) h).
Proof. intros H. unfold store_GraphModel. by rewrite H. Qed.

Lemma assign_Cell_run (l : loc) (c : Cell.t) (set : Cell.t → Cell.t)
    (h : heap) :
  cells h !! l = Some c →
  assign_Cell (Some l) set h =
  Returns ((), with_cells (<[l := set c]> (cells h)) h).
Proof.
  intros H. unfold assign_Cell.
  erewrite bind_Returns; [| by apply deref_run].
  by eapply store_Cell_run.
Qed.

Lemma assign_Geometry_run (l : loc) (g : Geometry.t)
    (set : Geometry.t → Geometry.t) (h : heap) :
  geometries h !! l = Some g →
  assign_Geometry (Some l) set h =
  Returns ((), with_geometries (<[l := set g]> (geometries h)) h).
Proof.
  intros H. unfold assign_Geometry.
  erewrite bind_Returns; [| by apply deref_run].
  by eapply store_Geometry_run.
Qed.

(** Runs the next statement of a monadic program with the given lemma. *)
Ltac step_with lem :=
  erewrite bind_Returns;
  [| solve [ eapply lem; simpl;
             first [ apply lookup_insert_eq | eassumption | done ] ] ].
Ltac step := erewrite bind_Returns; [| reflexivity ].

(** ** [NewShape] *)

Lemma NewShape_run (id layerId : string) (h : heap) :
  let p := fresh (dom (cells h)) in
  let g := fresh (dom (geometries h)) in
  NewShape id layerId h =
  Returns (Some p,
           {| maps := maps h; points := points h;
              geometries := <[g := default_geometry]> (geometries h);
              cells := <[p := shape_cell id layerId (Some g)]> (cells h);
              arrays := arrays h; graphs := graphs h;
              growslice := growslice h |}).
Proof.
  intros p g. unfold NewShape.
  step. step_with assign_Cell_run. step. step_with assign_Cell_run.
  unfold mret, M_ret. simpl. by rewrite !insert_insert_eq.
Qed.

(** C7: [NewShape] returns a pointer to a new cell with the given id and
    parent, vertex "1", no value, an empty style, and a new geometry with
    x = 10, y = 10 and as = "geometry"; its other fields are zero. *)
Theorem NewShape_cell (id parentId : string) (h : heap) :
  ∃ (p g : loc) (h' : heap) (c : Cell.t) (geometry : Geometry.t),
    NewShape id parentId h = Returns (Some p, h') ∧
    cells h !! p = None ∧
    cells h' !! p = Some c ∧
    Cell.Vertex c = "1" ∧
    Cell.ID c = id ∧
    Cell.ParentID c = parentId ∧
    Cell.Geometry c = Some g ∧
    geometries h !! g = None ∧
    geometries h' !! g = Some geometry ∧
    Geometry.X geometry = 10%Z ∧
    Geometry.Y geometry = 10%Z ∧
    Geometry.As geometry = "geometry" ∧
    geometry = default_geometry ∧
    style_entries h' (Cell.Style c) = Some ∅ ∧
    Cell.Value c = "" ∧
    c = shape_cell id parentId (Some g).
Proof.
  eexists _, _, _, _, _.
  split; [apply NewShape_run |]. simpl.
  split; [apply not_elem_of_dom, is_fresh |].
  split; [apply lookup_insert_eq |].
  do 4 (split; [reflexivity |]).
  split; [apply not_elem_of_dom, is_fresh |].
  split; [apply lookup_insert_eq |].
  repeat split.
Qed.

(** ** [NewImage] and [NewImageXY] *)

Lemma map_literal_loop_run (l : loc) (entries : list (string * string)) :
  ∀ (h : heap) (mp : gmap string string),
    maps h !! l = Some mp →
    for_range entries (λ kv, map_assign (Some l) kv.1 kv.2) h =
    Returns ((), with_maps
                   (<[l := foldl (λ m kv, <[kv.1 := kv.2]> m) mp entries]>
                      (maps h)) h).
Proof.
  induction entries as [|kv entries IH]; intros h mp Hl; simpl.
  - unfold mret, M_ret. rewrite insert_id by done. by destruct h.
  - step_with map_assign_run.
    erewrite IH; last by (simpl; apply lookup_insert_eq).
    simpl. by rewrite insert_insert_eq.
Qed.

Lemma map_literal_run (entries : list (string * string)) (h : heap) :
  let l := fresh (dom (maps h)) in
  map_literal entries h =
  Returns (Some l,
           with_maps
             (<[l := foldl (λ m kv, <[kv.1 := kv.2]> m) ∅ entries]> (maps h))
             h).
Proof.
  intros l. unfold map_literal. step.
  erewrite bind_Returns; last first.
  { apply map_literal_loop_run. simpl. apply lookup_insert_eq. }
  unfold mret, M_ret. simpl. by rewrite insert_insert_eq.
Qed.

Lemma image_style_literal (url : string) :
  foldl (λ (m : gmap string string) kv, <[kv.1 := kv.2]> m) ∅
    [("shape", "image"); ("imageAspect", "0"); ("image", url)] =
  image_style url.
Proof.
  unfold image_style. simpl. apply map_eq. intros k.
  rewrite !lookup_insert. rewrite lookup_singleton.
  repeat case_decide; subst; try done.
Qed.

Lemma NewImage_run (id layerId url : string) (h : heap) :
  let p := fresh (dom (cells h)) in
  let g := fresh (dom (geometries h)) in
  let m := fresh (dom (maps h)) in
  NewImage id layerId url h =
  Returns (Some p,
           {| maps := <[m := image_style url]> (maps h);
              points := points h;
              geometries := <[g := default_geometry]> (geometries h);
              cells :=
                <[p := Cell.set_Style {| Style.Attributes := Some m |}
                         (shape_cell id layerId (Some g))]> (cells h);
              arrays := arrays h; graphs := graphs h;
              growslice := growslice h |}).
Proof.
  intros p g m. unfold NewImage.
  step_with NewShape_run. step_with map_literal_run.
  step_with assign_Cell_run.
  unfold mret, M_ret. rewrite image_style_literal. simpl.
  by rewrite insert_insert_eq.
Qed.

(** C6: [NewImage] returns the cell [NewShape] builds with its style
    replaced.  The style of the returned cell points to a map that did
    not exist before the call and that holds exactly the three entries
    shape = image, imageAspect = 0 and image = url; the style [NewShape]
    gave the cell, which has no entry, is not kept and nothing is merged.
    Every other field of the cell, and its geometry, are those of
    [NewShape]. *)
Theorem NewImage_replaces_style (id parentId url : string) (h : heap) :
  ∃ (p m : loc) (h1 h' : heap) (shape image : Cell.t),
    NewShape id parentId h = Returns (Some p, h1) ∧
    cells h1 !! p = Some shape ∧
    NewImage id parentId url h = Returns (Some p, h') ∧
    cells h' !! p = Some image ∧
    Cell.Style image = {| Style.Attributes := Some m |} ∧
    maps h !! m = None ∧
    maps h1 !! m = None ∧
    style_entries h' (Cell.Style image) =
      Some {[ "shape" := "image"; "imageAspect" := "0"; "image" := url ]} ∧
    size ({[ "shape" := "image"; "imageAspect" := "0"; "image" := url ]}
          : gmap string string) = 3%nat ∧
    Cell.Style shape = Style.zero ∧
    style_entries h1 (Cell.Style shape) = Some ∅ ∧
    Cell.XMLName image = Cell.XMLName shape ∧
    Cell.ID image = Cell.ID shape ∧
    Cell.Value image = Cell.Value shape ∧
    Cell.ParentID image = Cell.ParentID shape ∧
    Cell.Vertex image = Cell.Vertex shape ∧
    Cell.Edge image = Cell.Edge shape ∧
    Cell.Source image = Cell.Source shape ∧
    Cell.Target image = Cell.Target shape ∧
    Cell.Geometry image = Cell.Geometry shape ∧
    Cell.ID image = id ∧
    Cell.ParentID image = parentId ∧
    Cell.Vertex image = "1" ∧
    geometries h' = geometries h1.
Proof.
  eexists _, _, _, _, _, _.
  split; [apply NewShape_run |]. simpl.
  split; [apply lookup_insert_eq |].
  split; [apply NewImage_run |]. simpl.
  split; [apply lookup_insert_eq |].
  split; [reflexivity |].
  split; [apply not_elem_of_dom, is_fresh |].
  split; [apply not_elem_of_dom, is_fresh |].
  split; [unfold style_entries; simpl; apply lookup_insert_eq |].
  split; [| repeat split].
  rewrite !map_size_insert_None, map_size_singleton; [done | |].
  - by rewrite lookup_singleton_ne.
  - rewrite lookup_insert_ne by done. by rewrite lookup_singleton_ne.
Qed.

Lemma NewImageXY_run (id layerId url : string) (x y : Z) (h : heap) :
  let p := fresh (dom (cells h)) in
  let g := fresh (dom (geometries h)) in
  let m := fresh (dom (maps h)) in
  NewImageXY id layerId url x y h =
  Returns (Some p,
           {| maps := <[m := image_style url]> (maps h);
              points := points h;
              geometries :=
                <[g := Geometry.set_X y default_geometry]> (geometries h);
              cells :=
                <[p := Cell.set_Style {| Style.Attributes := Some m |}
                         (shape_cell id layerId (Some g))]> (cells h);
              arrays := arrays h; graphs := graphs h;
              growslice := growslice h |}).
Proof.
  intros p g m. unfold NewImageXY.
  step_with NewImage_run.
  erewrite bind_Returns; [| by apply deref_run, lookup_insert_eq].
  simpl Cell.Geometry. step_with assign_Geometry_run.
  erewrite bind_Returns; [| by apply deref_run, lookup_insert_eq].
  simpl Cell.Geometry. step_with assign_Geometry_run.
  unfold mret, M_ret. simpl. by rewrite !insert_insert_eq.
Qed.

(** C3: in the cell [NewImageXY] returns, the geometry has X equal to the
    argument [y] and Y equal to the default 10: the argument [x] has no
    effect on the result.  The rest of the result is that of
    [NewImage]. *)
Theorem NewImageXY_sets_X_twice (id parentId url : string) (x y : Z)
    (h : heap) :
  ∃ (p g : loc) (h' : heap) (c : Cell.t) (geometry : Geometry.t),
    NewImageXY id parentId url x y h = Returns (Some p, h') ∧
    cells h' !! p = Some c ∧
    Cell.Geometry c = Some g ∧
    geometries h' !! g = Some geometry ∧
    Geometry.X geometry = y ∧
    Geometry.Y geometry = 10%Z ∧
    (∀ x' : Z,
       NewImageXY id parentId url x' y h = NewImageXY id parentId url x y h) ∧
    ∃ h0 : heap,
      NewImage id parentId url h = Returns (Some p, h0) ∧
      cells h0 !! p = Some c ∧
      maps h' = maps h0 ∧
      geometries h0 !! g = Some default_geometry ∧
      geometry = Geometry.set_X y default_geometry.
Proof.
  eexists _, _, _, _, _.
  split; [apply NewImageXY_run |]. simpl.
  split; [apply lookup_insert_eq |].
  split; [reflexivity |].
  split; [apply lookup_insert_eq |].
  split; [reflexivity |]. split; [reflexivity |].
  split; [intros x'; by rewrite !NewImageXY_run |].
  eexists. split; [apply NewImage_run |]. simpl.
  split; [apply lookup_insert_eq |].
  split; [reflexivity |].
  split; [apply lookup_insert_eq | reflexivity].
Qed.

(** ** Slices *)

Lemma slice_elems_length (h : heap) (s : Slice.t) (elems : list Cell.t) :
  slice_elems h s = Some elems → length elems = Slice.len s.
Proof.
  unfold slice_elems.
  destruct (Slice.array s) as [l|].
  - destruct (arrays h !! l) as [arr|]; [| done].
    case_decide; [| done]. intros [= <-].
    rewrite length_take, length_drop. lia.
  - case_decide; [| done]. intros [= <-]. simpl. lia.
Qed.

Lemma slice_elems_alloc (h : heap) (l : loc) (elems : list Cell.t) :
  arrays h !! l = Some elems →
  slice_elems h
    {| Slice.array := Some l; Slice.off := 0; Slice.len := length elems;
       Slice.cap := length elems |} = Some elems.
Proof.
  intros Hl. unfold slice_elems. simpl. rewrite Hl.
  rewrite decide_True by done. by rewrite drop_0, firstn_all.
Qed.

(** The slices of a heap keep their elements when an array is added at a
    free address. *)
Lemma slice_elems_fresh (h : heap) (l : loc) (arr : list Cell.t)
    (s : Slice.t) (elems : list Cell.t) :
  arrays h !! l = None →
  slice_elems h s = Some elems →
  slice_elems (with_arrays (<[l := arr]> (arrays h)) h) s = Some elems.
Proof.
  intros Hl. unfold slice_elems. simpl.
  destruct (Slice.array s) as [l0|]; [| done].
  destruct (decide (l = l0)) as [->|Hne].
  - by rewrite Hl.
  - by rewrite lookup_insert_ne.
Qed.

Lemma take_drop_insert (arr : list Cell.t) (off len : nat) (x : Cell.t) :
  (off + len < length arr)%nat →
  take (S len) (drop off (<[(off + len)%nat := x]> arr)) =
  take len (drop off arr) ++ [x].
Proof.
  intros Hlt.
  rewrite drop_insert_ge by lia.
  replace (off + len - off)%nat with len by lia.
  erewrite take_S_r; last first.
  { apply list_lookup_insert_eq. rewrite length_drop. lia. }
  by rewrite take_insert_ge.
Qed.

(** [append] on a slice of the heap returns: the slice it returns holds
    the elements of its argument and then the new one.  It changes
    nothing but arrays, and of the arrays that exist no slot but the one
    behind the last element of its argument, in the array of its
    argument. *)
Lemma append_run (s : Slice.t) (x : Cell.t) (old : list Cell.t) (h : heap) :
  slice_ok h s →
  slice_elems h s = Some old →
  ∃ (s' : Slice.t) (h' : heap),
    append s x h = Returns (s', h') ∧
    slice_elems h' s' = Some (old ++ [x]) ∧
    slice_ok h' s' ∧
    Slice.len s' = S (Slice.len s) ∧
    h' = with_arrays (arrays h') h ∧
    (∀ (l : loc) (arr : list Cell.t),
       arrays h !! l = Some arr →
       ∃ arr' : list Cell.t,
         arrays h' !! l = Some arr' ∧
         length arr' = length arr ∧
         ∀ i : nat,
           (Slice.array s = Some l ∧ i = (Slice.off s + Slice.len s)%nat ∧
            (Slice.len s < Slice.cap s)%nat) ∨
           arr' !! i = arr !! i).
Proof.
  intros [Hlen Hok] Hold. unfold append.
  destruct (decide (Slice.len s < Slice.cap s)%nat) as [Hroom|Hfull].
  - destruct (Slice.array s) as [l|] eqn:Harray; [| lia].
    destruct Hok as (arr & Harr & Hcap). rewrite Harr.
    rewrite decide_True by lia.
    unfold slice_elems in Hold. rewrite Harray, Harr in Hold.
    rewrite decide_True in Hold by lia. injection Hold as <-.
    eexists _, _. split; [reflexivity |].
    split.
    { unfold slice_elems. simpl. rewrite lookup_insert_eq.
      rewrite length_insert. rewrite decide_True by lia.
      by rewrite take_drop_insert by lia. }
    split.
    { split; [simpl; lia |]. simpl. eexists. rewrite lookup_insert_eq.
      split; [done |]. rewrite length_insert. lia. }
    split; [reflexivity |]. split; [reflexivity |].
    intros l0 arr0 Harr0. simpl.
    destruct (decide (l = l0)) as [<-|Hne].
    + rewrite lookup_insert_eq. rewrite Harr in Harr0. injection Harr0 as <-.
      eexists. split; [done |]. split; [apply length_insert |].
      intros i. destruct (decide (i = (Slice.off s + Slice.len s)%nat)) as [->|Hi].
      * by left.
      * right. by rewrite list_lookup_insert_ne.
    + rewrite lookup_insert_ne by done. eexists. split; [done |].
      split; [done |]. intros i. by right.
  - rewrite Hold.
    pose proof (slice_elems_length h s old Hold) as Hlength.
    eexists _, _. split; [reflexivity |].
    split.
    { unfold slice_elems. simpl. rewrite lookup_insert_eq.
      rewrite length_app. simpl. rewrite length_replicate.
      rewrite decide_True by lia.
      rewrite drop_0, cons_middle, app_assoc, take_app_length'; [done |].
      rewrite length_app. simpl. lia. }
    split.
    { split; [simpl; lia |]. simpl. eexists. rewrite lookup_insert_eq.
      split; [done |]. rewrite length_app. simpl. rewrite length_replicate.
      lia. }
    split; [reflexivity |]. split; [reflexivity |].
    intros l0 arr0 Harr0. simpl.
    assert (fresh (dom (arrays h)) ≠ l0) as Hne.
    { intros <-. apply (is_fresh (dom (arrays h))).
      apply elem_of_dom. by eexists. }
    rewrite lookup_insert_ne by done. eexists. split; [done |].
    split; [done |]. intros i. by right.
Qed.

Lemma slice_ok_elems (h : heap) (s : Slice.t) :
  slice_ok h s → ∃ elems : list Cell.t, slice_elems h s = Some elems.
Proof.
  intros [Hlen Hok]. unfold slice_elems.
  destruct (Slice.array s) as [l|].
  - destruct Hok as (arr & -> & Hcap). rewrite decide_True by lia. by eexists.
  - rewrite decide_True by lia. by eexists.
Qed.

(** ** [NewGraph] *)

Lemma NewGraph_run (h : heap) :
  let m := fresh (dom (maps h)) in
  let l := fresh (dom (arrays h)) in
  NewGraph h =
  Returns (graph_with_root (slice_of l 2 2),
           with_arrays
             (<[l := [plain_cell "0" "" {| Style.Attributes := Some m |};
                      plain_cell "1" "0" {| Style.Attributes := Some m |}]]>
                (arrays h))
             (with_maps (<[m := {[ "html" := "1" ]}]> (maps h)) h)).
Proof.
  intros m l. unfold NewGraph. step. simpl Style.Attributes.
  step_with map_assign_run. step.
  unfold mret, M_ret. simpl. by rewrite insert_insert_eq.
Qed.

(** C4: [NewGraph] returns, in every heap, a graph model with Dx = 640,
    Dy = 480 and exactly two cells: the first has id "0", no parent and
    the style {html: 1}; the second has id "1", the id of the first as
    parent and the same style, which is the same map {html: 1}. *)
Theorem NewGraph_two_cells (h : heap) :
  ∃ (g : GraphModel.t) (h' : heap) (c0 c1 : Cell.t),
    NewGraph h = Returns (g, h') ∧
    GraphModel.Dx g = 640%Z ∧
    GraphModel.Dy g = 480%Z ∧
    slice_elems h' (GraphModel.Root g) = Some [c0; c1] ∧
    Slice.len (GraphModel.Root g) = 2%nat ∧
    Cell.ID c0 = "0" ∧
    Cell.ParentID c0 = "" ∧
    style_entries h' (Cell.Style c0) = Some {[ "html" := "1" ]} ∧
    Cell.ID c1 = "1" ∧
    Cell.ParentID c1 = Cell.ID c0 ∧
    Cell.Style c1 = Cell.Style c0 ∧
    style_entries h' (Cell.Style c1) = Some {[ "html" := "1" ]} ∧
    c0 = plain_cell "0" "" (Cell.Style c0) ∧
    c1 = plain_cell "1" "0" (Cell.Style c0) ∧
    slice_ok h' (GraphModel.Root g).
Proof.
  eexists _, _, _, _.
  split; [apply NewGraph_run |].
  do 2 (split; [reflexivity |]).
  split; [apply (slice_elems_alloc _ _ [_; _]), lookup_insert_eq |].
  do 3 (split; [reflexivity |]).
  split; [unfold style_entries; simpl; apply lookup_insert_eq |].
  do 3 (split; [reflexivity |]).
  split; [unfold style_entries; simpl; apply lookup_insert_eq |].
  do 2 (split; [reflexivity |]).
  split; [simpl; lia |]. simpl. eexists.
  split; [apply lookup_insert_eq |]. simpl. lia.
Qed.

(** ** [Add] *)

Lemma Add_run (g c : loc) (gv : GraphModel.t) (cv : Cell.t)
    (old : list Cell.t) (h : heap) :
  graphs h !! g = Some gv →
  cells h !! c = Some cv →
  slice_ok h (GraphModel.Root gv) →
  slice_elems h (GraphModel.Root gv) = Some old →
  ∃ (root : Slice.t) (h1 : heap),
    append (GraphModel.Root gv) cv h = Returns (root, h1) ∧
    Add (Some g) (Some c) h =
      Returns (Some g,
               with_graphs (<[g := GraphModel.set_Root root gv]> (graphs h))
                 h1) ∧
    slice_elems h1 root = Some (old ++ [cv]) ∧
    slice_ok h1 root ∧
    Slice.len root = S (Slice.len (GraphModel.Root gv)) ∧
    h1 = with_arrays (arrays h1) h ∧
    (∀ (l : loc) (arr : list Cell.t),
       arrays h !! l = Some arr →
       ∃ arr' : list Cell.t,
         arrays h1 !! l = Some arr' ∧
         length arr' = length arr ∧
         ∀ i : nat,
           (Slice.array (GraphModel.Root gv) = Some l ∧
            i = (Slice.off (GraphModel.Root gv) +
                 Slice.len (GraphModel.Root gv))%nat ∧
            (Slice.len (GraphModel.Root gv) <
             Slice.cap (GraphModel.Root gv))%nat) ∨
           arr' !! i = arr !! i).
Proof.
  intros Hg Hc Hok Hold.
  destruct (append_run (GraphModel.Root gv) cv old h Hok Hold)
    as (root & h1 & Happend & Helems & Hok1 & Hlen & Hh1 & Hframe).
  exists root, h1. split; [done |]. split; [| done].
  unfold Add.
  erewrite bind_Returns; [| by apply deref_run].
  erewrite bind_Returns; [| by apply deref_run].
  erewrite bind_Returns; [| exact Happend].
  assert (graphs h1 = graphs h) as Hgraphs by (by rewrite Hh1).
  erewrite bind_Returns; last first.
  { eapply store_GraphModel_run. rewrite Hgraphs. exact Hg. }
  unfold mret, M_ret. by rewrite Hgraphs.
Qed.


Lemma sample_heap_slice_ok :
  slice_ok sample_heap (GraphModel.Root sample_graph).
Proof.
  split; [simpl; lia |]. simpl. eexists. split; [reflexivity |]. simpl. lia.
Qed.


(** X13: the copy [Add] stores is a copy of the fields of the cell: the
    geometry pointer of the copy is that of the original, so that an
    assignment through it is seen from both. *)
Remark Add_copy_is_shallow (g c l : loc) (gv : GraphModel.t) (cv : Cell.t)
    (geometry : Geometry.t) (set : Geometry.t → Geometry.t) (h : heap) :
  graphs h !! g = Some gv →
  cells h !! c = Some cv →
  slice_ok h (GraphModel.Root gv) →
  Cell.Geometry cv = Some l →
  geometries h !! l = Some geometry →
  ∃ h' h'' : heap,
    Add (Some g) (Some c) h = Returns (Some g, h') ∧
    assign_Geometry (Cell.Geometry cv) set h' = Returns ((), h'') ∧
    (graphs h'' !! g ≫=
       λ gv', slice_elems h'' (GraphModel.Root gv') ≫=
                λ elems, Cell.Geometry <$> last elems)
      = Some (Some l) ∧
    geometries h'' !! l = Some (set geometry).
Proof.
  intros Hg Hc Hok Hl Hgeo.
  destruct (slice_ok_elems h _ Hok) as [old Hold].
  destruct (Add_run g c gv cv old h Hg Hc Hok Hold)
    as (root & h1 & _ & Hadd & Helems & _ & _ & Hh1 & _).
  assert (geometries h1 = geometries h) as Hgeos by (by rewrite Hh1).
  eexists _, _. split; [exact Hadd |].
  rewrite Hl. split.
  { erewrite assign_Geometry_run; [done |]. simpl. by rewrite Hgeos. }
  simpl. rewrite !lookup_insert_eq. simpl.
  split; [| done].
  change (slice_elems h1 root ≫= (λ elems, Cell.Geometry <$> last elems) =
          Some (Some l)).
  rewrite Helems. simpl. rewrite last_snoc. simpl. by rewrite Hl.
Qed.

(** * Further properties *)

(** ** [Split] and [Join] *)

Section SplitJoin.

Variable sep : ascii.

Lemma Split_pieces_free (s : string) :
  Forall (λ piece, has_byte sep piece = false) (Split s sep).
Proof.
  induction s as [|c s IH]; simpl.
  - by constructor.
  - destruct (decide (c = sep)) as [Hc|Hc]; [by constructor |].
    destruct (Split s sep) as [|piece pieces]; [constructor; [| done] |].
    + simpl. by rewrite decide_False.
    + inversion IH as [|? ? Hpiece Hpieces]; subst.
      constructor; [| done]. simpl. by rewrite decide_False.
Qed.

Lemma Split_count (s : string) :
  length (Split s sep) = S (count_byte sep s).
Proof.
  induction s as [|c s IH]; simpl; [done |].
  destruct (decide (c = sep)); simpl; [by rewrite IH |].
  rewrite <- IH. by destruct (Split s sep).
Qed.

Lemma Join_Split (s : string) : Join (Split s sep) sep = s.
Proof.
  induction s as [|c s IH]; [done |].
  pose proof (Split_length sep s) as Hlen. simpl.
  destruct (decide (c = sep)) as [->|Hc].
  - destruct (Split s sep) as [|piece pieces] eqn:Hs; [simpl in Hlen; lia |].
    change (Join ("" :: piece :: pieces) sep)
      with ("" +:+ String sep (Join (piece :: pieces) sep)).
    by rewrite IH.
  - destruct (Split s sep) as [|piece pieces] eqn:Hs; [simpl in Hlen; lia |].
    destruct pieces as [|piece' pieces].
    + simpl in *. by rewrite IH.
    + change (Join (String c piece :: piece' :: pieces) sep)
        with (String c piece +:+ String sep (Join (piece' :: pieces) sep)).
      rewrite append_String. f_equal. exact IH.
Qed.

Lemma Split_app_any (s rest : string) :
  Split (s +:+ String sep rest) sep = Split s sep ++ Split rest sep.
Proof.
  induction s as [|c s IH]; rewrite ?append_String, ?append_nil_l; simpl.
  - by rewrite decide_True.
  - rewrite IH. pose proof (Split_length sep s) as Hlen.
    destruct (decide (c = sep)); [reflexivity |].
    destruct (Split s sep); [simpl in Hlen; lia | reflexivity].
Qed.

Lemma Split_Join (pieces : list string) :
  pieces ≠ [] →
  Forall (λ piece, has_byte sep piece = false) pieces →
  Split (Join pieces sep) sep = pieces.
Proof.
  intros Hne Hfree. induction Hfree as [|piece pieces Hpiece Hfree IH]; [done |].
  destruct pieces as [|piece' pieces].
  - simpl. by apply Split_free.
  - change (Join (piece :: piece' :: pieces) sep)
      with (piece +:+ String sep (Join (piece' :: pieces) sep)).
    rewrite Split_app by done. by rewrite IH.
Qed.

End SplitJoin.

(** X1: the pieces [Split] returns contain no separator, there is one
    more of them than there are separators in the input, and joining them
    with the separator gives the input back; conversely a non-empty list
    of pieces without separator is what [Split] returns for their
    join. *)
Theorem Split_Join_inverse (s : string) (sep : ascii) (pieces : list string) :
  Forall (λ piece, has_byte sep piece = false) (Split s sep) ∧
  length (Split s sep) = S (count_byte sep s) ∧
  Join (Split s sep) sep = s ∧
  (pieces ≠ [] →
   Forall (λ piece, has_byte sep piece = false) pieces →
   Split (Join pieces sep) sep = pieces).
Proof.
  split; [apply Split_pieces_free |].
  split; [apply Split_count |].
  split; [apply Join_Split |].
  apply Split_Join.
Qed.

Lemma Split_Join_inverse_witness :
  ["a=1"; "b"; ""] ≠ [] ∧
  Forall (λ piece, has_byte ";" piece = false) ["a=1"; "b"; ""] ∧
  Split (Join ["a=1"; "b"; ""] ";") ";" = ["a=1"; "b"; ""].
Proof.
  assert (["a=1"; "b"; ""] ≠ @nil string) as Hne by discriminate.
  assert (Forall (λ piece, has_byte ";" piece = false) ["a=1"; "b"; ""])
    as Hfree by (repeat constructor).
  split; [exact Hne |]. split; [exact Hfree |].
  exact (proj2 (proj2 (proj2 (Split_Join_inverse "" ";" _))) Hne Hfree).
Defined.

(** ** More on decoding *)

Lemma has_byte_before_sep (sep : ascii) (s : string) :
  has_byte sep (before sep s) = false.
Proof.
  induction s as [|c s IH]; simpl; [done |].
  destruct (decide (c = sep)); [done |].
  simpl. by rewrite decide_False.
Qed.

Lemma has_byte_before (c sep : ascii) (s : string) :
  has_byte c s = false → has_byte c (before sep s) = false.
Proof.
  induction s as [|c' s IH]; simpl; [done |].
  destruct (decide (c' = c)); [done |].
  intros H. destruct (decide (c' = sep)); [done |].
  simpl. rewrite decide_False by done. by apply IH.
Qed.

Lemma has_byte_after (c sep : ascii) (s rest : string) :
  has_byte c s = false → after sep s = Some rest → has_byte c rest = false.
Proof.
  induction s as [|c' s IH]; simpl; [done |].
  destruct (decide (c' = c)); [done |].
  intros H. destruct (decide (c' = sep)); [by intros [= <-] |].
  by apply IH.
Qed.

Lemma fragment_separator_free (fragment : string) :
  has_byte ";" fragment = false →
  separator_free (fragment_key fragment) ∧
  separator_free (fragment_value fragment).
Proof.
  intros H. unfold separator_free, fragment_key, fragment_value.
  split; [split; [by apply has_byte_before | apply has_byte_before_sep] |].
  destruct (after "=" fragment) as [rest|] eqn:Hrest; [| done].
  split; [| apply has_byte_before_sep].
  apply has_byte_before. by eapply has_byte_after.
Qed.

Lemma decode_fragments_separator_free (s k v : string) :
  decode_fragments s !! k = Some v → separator_free k ∧ separator_free v.
Proof.
  rewrite decode_fragments_lookup.
  destruct (last _) as [f|] eqn:Hlast; [| done].
  intros [= <-].
  apply last_Some_elem_of, list_elem_of_filter in Hlast as [<- Hin].
  apply fragment_separator_free.
  pose proof (Split_pieces_free ";" s) as Hfree.
  rewrite Forall_forall in Hfree. by apply Hfree.
Qed.

(** X2: [UnmarshalXMLAttr] never stores a key or a value that contains a
    ';' or a '='. *)
Theorem UnmarshalXMLAttr_separator_free (a : Style.t) (attr : xml.Attr)
    (h : heap) :
  ∃ (a' : Style.t) (h' : heap) (m : gmap string string),
    UnmarshalXMLAttr a attr h = Returns ((a', nil_error), h') ∧
    style_entries h' a' = Some m ∧
    ∀ k v : string, m !! k = Some v → separator_free k ∧ separator_free v.
Proof.
  eexists _, _, (decode_fragments (xml.Value attr)).
  split; [apply UnmarshalXMLAttr_run |].
  split; [apply style_entries_new |].
  apply decode_fragments_separator_free.
Qed.

Lemma UnmarshalXMLAttr_separator_free_witness :
  ∃ (a' : Style.t) (h' : heap) (m : gmap string string),
    UnmarshalXMLAttr Style.zero (xml.mkAttr xml.zero_Name "a=b=c;d") empty_heap =
      Returns ((a', nil_error), h') ∧
    style_entries h' a' = Some m ∧
    m !! "a" = Some "b" ∧
    separator_free "a" ∧ separator_free "b".
Proof.
  destruct (UnmarshalXMLAttr_separator_free Style.zero
              (xml.mkAttr xml.zero_Name "a=b=c;d") empty_heap)
    as (a' & h' & m & Hrun & Hm & Hfree).
  assert (m !! "a" = Some "b") as Hlookup.
  { rewrite UnmarshalXMLAttr_run in Hrun. injection Hrun as <- <-.
    unfold style_entries in Hm. simpl in Hm.
    rewrite lookup_insert_eq in Hm. by injection Hm as <-. }
  exists a', h', m. split; [exact Hrun |]. split; [exact Hm |].
  split; [exact Hlookup |]. exact (Hfree "a" "b" Hlookup).
Defined.

Lemma foldl_store_fragment_size (pairs : list string) :
  ∀ mp : gmap string string,
    size (foldl store_fragment mp pairs) ≤ size mp + length pairs.
Proof.
  induction pairs as [|f pairs IH]; intros mp; simpl; [lia |].
  etrans; [apply IH |]. unfold store_fragment. rewrite map_size_insert.
  destruct (mp !! fragment_key f); simpl; lia.
Qed.

(** X3: the map [UnmarshalXMLAttr] builds has at least one entry and at
    most one entry per fragment, that is one more than there are ';' in
    the input. *)
Theorem UnmarshalXMLAttr_size (a : Style.t) (attr : xml.Attr) (h : heap) :
  ∃ (a' : Style.t) (h' : heap) (m : gmap string string),
    UnmarshalXMLAttr a attr h = Returns ((a', nil_error), h') ∧
    style_entries h' a' = Some m ∧
    1 ≤ size m ≤ S (count_byte ";" (xml.Value attr)).
Proof.
  eexists _, _, (decode_fragments (xml.Value attr)).
  split; [apply UnmarshalXMLAttr_run |].
  split; [apply style_entries_new |].
  split.
  - pose proof (decode_fragments_nonempty (xml.Value attr)) as Hne.
    apply map_size_non_empty_iff in Hne. lia.
  - rewrite <- Split_count. unfold decode_fragments.
    etrans; [apply foldl_store_fragment_size |].
    by rewrite map_size_empty.
Qed.

Lemma foldl_store_fragment_union (pairs : list string)
    (mp : gmap string string) :
  foldl store_fragment mp pairs = foldl store_fragment ∅ pairs ∪ mp.
Proof.
  apply map_eq. intros k.
  rewrite lookup_union, !foldl_store_fragment_lookup.
  destruct (last _); [| rewrite lookup_empty];
    by destruct (mp !! k).
Qed.

Lemma decode_fragments_app (s1 s2 : string) :
  decode_fragments (s1 +:+ ";" +:+ s2) =
  decode_fragments s2 ∪ decode_fragments s1.
Proof.
  unfold decode_fragments.
  rewrite (append_String ";" ""), append_nil_l.
  rewrite Split_app_any, foldl_app.
  apply foldl_store_fragment_union.
Qed.

(** X4: decoding "s1;s2" is decoding [s2] over decoding [s1]: the result
    holds the entries of [s2] and, under the keys [s2] does not have, those
    of [s1]. *)
Theorem UnmarshalXMLAttr_concat (a : Style.t) (name : xml.Name)
    (s1 s2 : string) (h : heap) :
  ∃ (a1 a2 a12 : Style.t) (h1 h2 h12 : heap) (m1 m2 : gmap string string),
    UnmarshalXMLAttr a (xml.mkAttr name s1) h = Returns ((a1, nil_error), h1) ∧
    style_entries h1 a1 = Some m1 ∧
    UnmarshalXMLAttr a (xml.mkAttr name s2) h = Returns ((a2, nil_error), h2) ∧
    style_entries h2 a2 = Some m2 ∧
    UnmarshalXMLAttr a (xml.mkAttr name (s1 +:+ ";" +:+ s2)) h =
      Returns ((a12, nil_error), h12) ∧
    style_entries h12 a12 = Some (m2 ∪ m1).
Proof.
  eexists _, _, _, _, _, _, _, _.
  split; [apply UnmarshalXMLAttr_run |].
  split; [apply style_entries_new |].
  split; [apply UnmarshalXMLAttr_run |].
  split; [apply style_entries_new |].
  split; [apply UnmarshalXMLAttr_run |].
  simpl xml.Value. rewrite decode_fragments_app. apply style_entries_new.
Qed.

Lemma decode_fragments_lookup_Some (s k v : string) :
  decode_fragments s !! k = Some v →
  ∃ f : string,
    f ∈ Split s ";" ∧ fragment_key f = k ∧ fragment_value f = v.
Proof.
  rewrite decode_fragments_lookup.
  destruct (last _) as [f|] eqn:Hlast; [| done].
  intros [= <-].
  apply last_Some_elem_of, list_elem_of_filter in Hlast as [Hk Hin].
  by exists f.
Qed.

(** X5: when no fragment of [s1] has the key of a fragment of [s2], the
    order of the two does not matter: "s1;s2" and "s2;s1" decode to the
    same mapping. *)
Theorem UnmarshalXMLAttr_concat_comm (a : Style.t) (name : xml.Name)
    (s1 s2 : string) (h : heap) :
  (∀ f1 f2 : string,
     f1 ∈ Split s1 ";" → f2 ∈ Split s2 ";" →
     fragment_key f1 ≠ fragment_key f2) →
  ∃ (a12 a21 : Style.t) (h12 h21 : heap) (m : gmap string string),
    UnmarshalXMLAttr a (xml.mkAttr name (s1 +:+ ";" +:+ s2)) h =
      Returns ((a12, nil_error), h12) ∧
    UnmarshalXMLAttr a (xml.mkAttr name (s2 +:+ ";" +:+ s1)) h =
      Returns ((a21, nil_error), h21) ∧
    style_entries h12 a12 = Some m ∧
    style_entries h21 a21 = Some m.
Proof.
  intros Hkeys. eexists _, _, _, _, _.
  split; [apply UnmarshalXMLAttr_run |].
  split; [apply UnmarshalXMLAttr_run |].
  split; [apply style_entries_new |].
  rewrite style_entries_new. simpl. f_equal.
  rewrite !decode_fragments_app. apply map_union_comm.
  apply map_disjoint_spec. intros k v1 v2 H1 H2.
  apply decode_fragments_lookup_Some in H1 as (f1 & Hin1 & Hk1 & _).
  apply decode_fragments_lookup_Some in H2 as (f2 & Hin2 & Hk2 & _).
  apply (Hkeys f1 f2 Hin1 Hin2). congruence.
Qed.

Lemma UnmarshalXMLAttr_concat_comm_witness :
  (∀ f1 f2 : string,
     f1 ∈ Split "a=1" ";" → f2 ∈ Split "b" ";" →
     fragment_key f1 ≠ fragment_key f2) ∧
  ∃ (a12 a21 : Style.t) (h12 h21 : heap) (m : gmap string string),
    UnmarshalXMLAttr Style.zero (xml.mkAttr xml.zero_Name "a=1;b") empty_heap =
      Returns ((a12, nil_error), h12) ∧
    UnmarshalXMLAttr Style.zero (xml.mkAttr xml.zero_Name "b;a=1") empty_heap =
      Returns ((a21, nil_error), h21) ∧
    style_entries h12 a12 = Some m ∧
    style_entries h21 a21 = Some m.
Proof.
  assert (∀ f1 f2 : string,
            f1 ∈ Split "a=1" ";" → f2 ∈ Split "b" ";" →
            fragment_key f1 ≠ fragment_key f2) as Hkeys.
  { intros f1 f2 Hin1 Hin2.
    apply list_elem_of_singleton in Hin1 as ->.
    apply list_elem_of_singleton in Hin2 as ->.
    discriminate. }
  split; [exact Hkeys |].
  exact (UnmarshalXMLAttr_concat_comm Style.zero xml.zero_Name "a=1" "b"
           empty_heap Hkeys).
Defined.

(** ** More on encoding and on round trips *)

Lemma entries_separator_free (m : gmap string string)
    (entries : list (string * string)) :
  (∀ k v : string, m !! k = Some v → separator_free k ∧ separator_free v) →
  entries ≡ₚ map_to_list m →
  Forall (λ kv, separator_free kv.1 ∧ separator_free kv.2) entries.
Proof.
  intros Hfree Hperm. apply Forall_forall. intros [k v] Hin. simpl.
  apply Hfree. apply elem_of_map_to_list. by rewrite <- Hperm.
Qed.

Lemma list_to_map_entries (m : gmap string string)
    (entries : list (string * string)) :
  entries ≡ₚ map_to_list m → list_to_map (reverse entries) = m.
Proof.
  intros Hperm. rewrite <- (list_to_map_to_list m).
  apply list_to_map_proper.
  - rewrite reverse_Permutation, Hperm. apply NoDup_fst_map_to_list.
  - by rewrite reverse_Permutation.
Qed.

(** X6: the decoder is exact on entries joined by ';' with no ';' after
    the last one: for a non-empty mapping without ';' and '=' in its keys
    and values, decoding its fragments "key" or "key=value", joined in any
    order, gives the mapping. *)
Theorem UnmarshalXMLAttr_joined (m : gmap string string)
    (entries : list (string * string)) (a : Style.t) (name : xml.Name)
    (h : heap) :
  (∀ k v : string, m !! k = Some v → separator_free k ∧ separator_free v) →
  entries ≡ₚ map_to_list m →
  m ≠ ∅ →
  ∃ (a' : Style.t) (h' : heap),
    UnmarshalXMLAttr a
      (xml.mkAttr name (Join (entry_fragment <$> entries) ";")) h =
      Returns ((a', nil_error), h') ∧
    style_entries h' a' = Some m.
Proof.
  intros Hfree Hperm Hne.
  pose proof (entries_separator_free m entries Hfree Hperm) as Hall.
  eexists _, _. split; [apply UnmarshalXMLAttr_run |].
  rewrite style_entries_new. f_equal. simpl. unfold decode_fragments.
  rewrite Split_Join.
  - rewrite foldl_store_entry_fragments, foldl_insert_list_to_map by done.
    by apply list_to_map_entries.
  - intros Hnil. apply fmap_nil_inv in Hnil. subst entries.
    apply Hne, map_to_list_empty_iff. by apply Permutation_nil_l in Hperm.
  - apply Forall_fmap. eapply Forall_impl; [exact Hall |].
    intros kv [Hk Hv]. by apply entry_fragment_free.
Qed.

Lemma UnmarshalXMLAttr_joined_witness :
  (∀ k v : string,
     ({[ "rounded" := "1" ]} : gmap string string) !! k = Some v →
     separator_free k ∧ separator_free v) ∧
  [("rounded", "1")] ≡ₚ
    map_to_list ({[ "rounded" := "1" ]} : gmap string string) ∧
  ({[ "rounded" := "1" ]} : gmap string string) ≠ ∅ ∧
  ∃ (a' : Style.t) (h' : heap),
    UnmarshalXMLAttr Style.zero (xml.mkAttr xml.zero_Name "rounded=1")
      empty_heap = Returns ((a', nil_error), h') ∧
    style_entries h' a' = Some {[ "rounded" := "1" ]}.
Proof.
  assert ([("rounded", "1")] ≡ₚ
          map_to_list ({[ "rounded" := "1" ]} : gmap string string)) as Hperm
    by (rewrite map_to_list_singleton; reflexivity).
  assert (({[ "rounded" := "1" ]} : gmap string string) ≠ ∅) as Hne
    by apply insert_non_empty.
  split; [exact one_style_separator_free |].
  split; [exact Hperm |]. split; [exact Hne |].
  exact (UnmarshalXMLAttr_joined _ _ Style.zero xml.zero_Name empty_heap
           one_style_separator_free Hperm Hne).
Defined.

(** X7: decoding, encoding and decoding again.  Whatever the string [s],
    every encoding of the style decoded from [s] decodes to that style's
    mapping with the entry from the empty key to the empty value added;
    when [s] ends with ';', as every non-empty encoding does, it decodes
    to that mapping itself. *)
Theorem decode_encode_decode (a : Style.t) (name : xml.Name) (s : string)
    (h : heap) :
  (∃ (a' : Style.t) (h' : heap) (m : gmap string string),
     UnmarshalXMLAttr a (xml.mkAttr name s) h =
       Returns ((a', nil_error), h') ∧
     style_entries h' a' = Some m ∧
     ∀ (result : xml.Attr * error) (b : Style.t) (h2 : heap),
       MarshalXMLAttr a' name h' result →
       ∃ (b' : Style.t) (h2' : heap),
         UnmarshalXMLAttr b result.1 h2 = Returns ((b', nil_error), h2') ∧
         style_entries h2' b' = Some (<["" := ""]> m)) ∧
  (∃ (a' : Style.t) (h' : heap) (m : gmap string string),
     UnmarshalXMLAttr a (xml.mkAttr name (s +:+ ";")) h =
       Returns ((a', nil_error), h') ∧
     style_entries h' a' = Some m ∧
     ∀ (result : xml.Attr * error) (b : Style.t) (h2 : heap),
       MarshalXMLAttr a' name h' result →
       ∃ (b' : Style.t) (h2' : heap),
         UnmarshalXMLAttr b result.1 h2 = Returns ((b', nil_error), h2') ∧
         style_entries h2' b' = Some m).
Proof.
  assert (∀ s0 : string,
            ∃ (a' : Style.t) (h' : heap),
              UnmarshalXMLAttr a (xml.mkAttr name s0) h =
                Returns ((a', nil_error), h') ∧
              style_entries h' a' = Some (decode_fragments s0) ∧
              ∀ (result : xml.Attr * error) (b : Style.t) (h2 : heap),
                MarshalXMLAttr a' name h' result →
                ∃ (b' : Style.t) (h2' : heap),
                  UnmarshalXMLAttr b result.1 h2 =
                    Returns ((b', nil_error), h2') ∧
                  style_entries h2' b' =
                    Some (<["" := ""]> (decode_fragments s0))) as Hany.
  { intros s0. eexists _, _.
    split; [apply UnmarshalXMLAttr_run |].
    split; [apply style_entries_new |].
    intros result b h2 (entries & (mp & Hmp & Hperm) & ->).
    simpl in Hmp. rewrite lookup_insert_eq in Hmp. injection Hmp as <-.
    eexists _, _. split; [apply UnmarshalXMLAttr_run |].
    rewrite style_entries_new. simpl.
    rewrite MarshalXMLAttr_loop_render.
    rewrite (decode_render_entries (decode_fragments s0) entries); [done | | done].
    apply decode_fragments_separator_free. }
  split.
  - destruct (Hany s) as (a' & h' & ? & ? & ?).
    by exists a', h', (decode_fragments s).
  - destruct (Hany (s +:+ ";")) as (a' & h' & Hrun & Hm & Hagain).
    exists a', h', (decode_fragments (s +:+ ";")).
    split; [done |]. split; [done |].
    intros result b h2 Hresult.
    destruct (Hagain result b h2 Hresult) as (b' & h2' & Hrun2 & Hm2).
    exists b', h2'. split; [done |].
    rewrite Hm2, decode_fragments_snoc. by rewrite insert_insert_eq.
Qed.

Lemma decode_encode_decode_witness :
  ∃ (a' : Style.t) (h' : heap),
    UnmarshalXMLAttr Style.zero (xml.mkAttr xml.zero_Name ("b=2=3" +:+ ";"))
      empty_heap = Returns ((a', nil_error), h') ∧
    MarshalXMLAttr a' xml.zero_Name h' (style_attr "b=2;;", nil_error) ∧
    ∃ (b' : Style.t) (h2' : heap),
      UnmarshalXMLAttr Style.zero (style_attr "b=2;;") empty_heap =
        Returns ((b', nil_error), h2') ∧
      style_entries h2' b' = style_entries h' a'.
Proof.
  destruct (decode_encode_decode Style.zero xml.zero_Name "b=2=3" empty_heap)
    as (_ & a' & h' & m & Hrun & Hm & Hagain).
  assert (MarshalXMLAttr a' xml.zero_Name h' (style_attr "b=2;;", nil_error))
    as Hresult.
  { rewrite UnmarshalXMLAttr_run in Hrun. injection Hrun as <- <-.
    exists [("b", "2"); ("", "")]. split; [| reflexivity].
    eexists. split; [apply lookup_insert_eq |].
    vm_compute. reflexivity. }
  destruct (Hagain _ Style.zero empty_heap Hresult) as (b' & h2' & Hrun2 & Hm2).
  exists a', h'. split; [exact Hrun |]. split; [exact Hresult |].
  exists b', h2'. split; [exact Hrun2 |]. by rewrite Hm2, Hm.
Defined.

Lemma append_eq_nil (s t : string) : s +:+ t = "" → s = "" ∧ t = "".
Proof. destruct s; [done |]. rewrite append_String. discriminate. Qed.

Lemma render_entries_nil_iff (entries : list (string * string)) :
  render_entries entries = "" ↔ entries = [].
Proof.
  split; [| by intros ->].
  destruct entries as [|kv entries]; [done |]. simpl.
  rewrite render_entry_fragment.
  intros [[_ [=]]%append_eq_nil _]%append_eq_nil.
Qed.

(** X8: the encoding of a style is the empty string exactly when the style
    has no entry. *)
Theorem MarshalXMLAttr_empty_iff (a : Style.t) (name : xml.Name) (h : heap)
    (m : gmap string string) (result : xml.Attr * error) :
  style_entries h a = Some m →
  MarshalXMLAttr a name h result →
  (xml.Value result.1 = "" ↔ m = ∅).
Proof.
  intros Hm (entries & (mp & Hmp & Hperm) & ->).
  unfold style_entries in Hm. rewrite Hm in Hmp. injection Hmp as <-.
  simpl. rewrite MarshalXMLAttr_loop_render, render_entries_nil_iff.
  rewrite <- map_to_list_empty_iff. split.
  - intros ->. by apply Permutation_nil_l in Hperm.
  - intros Hnil. rewrite Hnil in Hperm. by apply Permutation_nil_r in Hperm.
Qed.

Lemma MarshalXMLAttr_empty_iff_witness :
  style_entries one_style_heap {| Style.Attributes := Some 1%positive |} =
    Some {[ "rounded" := "1" ]} ∧
  MarshalXMLAttr {| Style.Attributes := Some 1%positive |} xml.zero_Name
    one_style_heap (style_attr "rounded=1;", nil_error) ∧
  ("rounded=1;" = "" ↔ ({[ "rounded" := "1" ]} : gmap string string) = ∅).
Proof.
  split; [reflexivity |]. split; [exact MarshalXMLAttr_one_style |].
  exact (MarshalXMLAttr_empty_iff {| Style.Attributes := Some 1%positive |}
           xml.zero_Name one_style_heap {[ "rounded" := "1" ]}
           (style_attr "rounded=1;", nil_error)
           eq_refl MarshalXMLAttr_one_style).
Defined.

Lemma entries_of_fragments (entries : list (string * string)) :
  Forall (λ kv, separator_free kv.1 ∧ separator_free kv.2) entries →
  (λ f, (fragment_key f, fragment_value f)) <$> (entry_fragment <$> entries) =
  entries.
Proof.
  induction 1 as [|[k v] entries [Hk Hv] _ IH]; [done |].
  rewrite !fmap_cons, IH.
  by destruct (entry_fragment_free (k, v) Hk Hv) as (_ & -> & ->).
Qed.

(** X9: on styles without ';' and '=' in their keys and values the
    encoding loses nothing: two such styles that can be encoded as the
    same text hold the same mapping. *)
Theorem MarshalXMLAttr_injective (a1 a2 : Style.t) (name1 name2 : xml.Name)
    (h1 h2 : heap) (m1 m2 : gmap string string)
    (result1 result2 : xml.Attr * error) :
  style_entries h1 a1 = Some m1 →
  style_entries h2 a2 = Some m2 →
  (∀ k v : string, m1 !! k = Some v → separator_free k ∧ separator_free v) →
  (∀ k v : string, m2 !! k = Some v → separator_free k ∧ separator_free v) →
  MarshalXMLAttr a1 name1 h1 result1 →
  MarshalXMLAttr a2 name2 h2 result2 →
  xml.Value result1.1 = xml.Value result2.1 →
  m1 = m2.
Proof.
  intros Hm1 Hm2 Hfree1 Hfree2
    (entries1 & (mp1 & Hmp1 & Hperm1) & ->)
    (entries2 & (mp2 & Hmp2 & Hperm2) & ->).
  unfold style_entries in Hm1, Hm2.
  rewrite Hm1 in Hmp1. rewrite Hm2 in Hmp2.
  injection Hmp1 as <-. injection Hmp2 as <-.
  simpl. rewrite !MarshalXMLAttr_loop_render. intros Htext.
  pose proof (entries_separator_free m1 entries1 Hfree1 Hperm1) as Hall1.
  pose proof (entries_separator_free m2 entries2 Hfree2 Hperm2) as Hall2.
  apply (f_equal (λ s, Split s ";")) in Htext.
  rewrite !Split_render_entries in Htext by done.
  apply app_inv_tail in Htext.
  apply (f_equal (fmap (λ f, (fragment_key f, fragment_value f)))) in Htext.
  rewrite !entries_of_fragments in Htext by done. subst entries2.
  rewrite <- (list_to_map_entries m1 entries1), <- (list_to_map_entries m2 entries1);
    done.
Qed.

Lemma MarshalXMLAttr_injective_witness :
  style_entries one_style_heap {| Style.Attributes := Some 1%positive |} =
    Some {[ "rounded" := "1" ]} ∧
  (∀ k v : string,
     ({[ "rounded" := "1" ]} : gmap string string) !! k = Some v →
     separator_free k ∧ separator_free v) ∧
  MarshalXMLAttr {| Style.Attributes := Some 1%positive |} xml.zero_Name
    one_style_heap (style_attr "rounded=1;", nil_error) ∧
  ({[ "rounded" := "1" ]} : gmap string string) = {[ "rounded" := "1" ]}.
Proof.
  split; [reflexivity |]. split; [exact one_style_separator_free |].
  split; [exact MarshalXMLAttr_one_style |].
  exact (MarshalXMLAttr_injective
           {| Style.Attributes := Some 1%positive |}
           {| Style.Attributes := Some 1%positive |}
           xml.zero_Name xml.zero_Name one_style_heap one_style_heap
           {[ "rounded" := "1" ]} {[ "rounded" := "1" ]}
           (style_attr "rounded=1;", nil_error)
           (style_attr "rounded=1;", nil_error)
           eq_refl eq_refl
           one_style_separator_free one_style_separator_free
           MarshalXMLAttr_one_style MarshalXMLAttr_one_style eq_refl).
Defined.

Lemma MarshalXMLAttr_singleton (a : Style.t) (name : xml.Name) (h : heap)
    (k v : string) (result : xml.Attr * error) :
  style_entries h a = Some {[ k := v ]} →
  MarshalXMLAttr a name h result ↔
  result = (style_attr (render_entries [(k, v)]), nil_error).
Proof.
  intros Hm. unfold MarshalXMLAttr, range_yields.
  unfold style_entries in Hm. split.
  - intros (entries & (mp & Hmp & Hperm) & ->).
    rewrite Hm in Hmp. injection Hmp as <-.
    rewrite map_to_list_singleton in Hperm.
    apply Permutation_singleton_r in Hperm as ->.
    by rewrite MarshalXMLAttr_loop_render.
  - intros ->. exists [(k, v)]. split.
    + exists {[ k := v ]}. split; [done |]. by rewrite map_to_list_singleton.
    + by rewrite MarshalXMLAttr_loop_render.
Qed.

(** X10: with a '=' in a key the encoding is ambiguous: for a non-empty
    value [v], the style that maps the key "k=v" to the empty value and the
    style that maps [k] to [v] are different mappings with the same
    encodings. *)
Theorem MarshalXMLAttr_ambiguous (a1 a2 : Style.t) (name : xml.Name)
    (h : heap) (k v : string) (result : xml.Attr * error) :
  v ≠ "" →
  style_entries h a1 = Some {[ k +:+ "=" +:+ v := "" ]} →
  style_entries h a2 = Some {[ k := v ]} →
  ({[ k +:+ "=" +:+ v := "" ]} : gmap string string) ≠ {[ k := v ]} ∧
  (MarshalXMLAttr a1 name h result ↔ MarshalXMLAttr a2 name h result).
Proof.
  intros Hv Hm1 Hm2. split.
  - intros Heq.
    apply (f_equal (λ m : gmap string string, m !! (k +:+ "=" +:+ v))) in Heq.
    rewrite lookup_singleton_eq in Heq. symmetry in Heq.
    apply lookup_singleton_Some in Heq as [_ Heq]. done.
  - rewrite (MarshalXMLAttr_singleton a1 name h _ _ result Hm1).
    rewrite (MarshalXMLAttr_singleton a2 name h _ _ result Hm2).
    assert (render_entries [(k +:+ "=" +:+ v, "")] = render_entries [(k, v)])
      as ->; [| done].
    unfold render_entries, render_entry. simpl.
    rewrite decide_False by done. by rewrite !append_assoc.
Qed.

Lemma MarshalXMLAttr_ambiguous_witness :
  "b" ≠ "" ∧
  style_entries
    (with_maps {[ 1%positive := {[ "a=b" := "" ]};
                  2%positive := {[ "a" := "b" ]} ]} empty_heap)
    {| Style.Attributes := Some 1%positive |} = Some {[ "a=b" := "" ]} ∧
  style_entries
    (with_maps {[ 1%positive := {[ "a=b" := "" ]};
                  2%positive := {[ "a" := "b" ]} ]} empty_heap)
    {| Style.Attributes := Some 2%positive |} = Some {[ "a" := "b" ]} ∧
  ({[ "a=b" := "" ]} : gmap string string) ≠ {[ "a" := "b" ]}.
Proof.
  assert ("b" ≠ "") as Hv by discriminate.
  split; [exact Hv |]. split; [reflexivity |]. split; [reflexivity |].
  exact (proj1 (MarshalXMLAttr_ambiguous
                  {| Style.Attributes := Some 1%positive |}
                  {| Style.Attributes := Some 2%positive |}
                  xml.zero_Name
                  (with_maps {[ 1%positive := {[ "a=b" := "" ]};
                                2%positive := {[ "a" := "b" ]} ]} empty_heap)
                  "a" "b" (style_attr "a=b;", nil_error)
                  Hv eq_refl eq_refl)).
Defined.

(** ** More on [Add] *)



(** X12: [Add] panics with a nil pointer dereference when its receiver or
    its argument is nil, and returns in every other case. *)
Theorem Add_nil (g c : option loc) (h : heap) :
  (∀ l : loc, g = Some l → is_Some (graphs h !! l)) →
  (∀ l : loc, c = Some l → is_Some (cells h !! l)) →
  (∀ (l : loc) (gv : GraphModel.t),
     g = Some l → graphs h !! l = Some gv → slice_ok h (GraphModel.Root gv)) →
  (g = None ∨ c = None → Add g c h = Panics NilDereference) ∧
  (g ≠ None → c ≠ None → ∃ h' : heap, Add g c h = Returns (g, h')).
Proof.
  intros Hg Hc Hok. split.
  - intros [-> | ->]; [reflexivity |].
    destruct g as [l|]; [| reflexivity].
    destruct (Hg l eq_refl) as [gv Hgv].
    unfold Add. erewrite bind_Returns; [| by apply deref_run].
    reflexivity.
  - intros Hgn Hcn.
    destruct g as [lg|]; [| done]. destruct c as [lc|]; [| done].
    destruct (Hg lg eq_refl) as [gv Hgv]. destruct (Hc lc eq_refl) as [cv Hcv].
    destruct (slice_ok_elems h _ (Hok lg gv eq_refl Hgv)) as [old Hold].
    destruct (Add_run lg lc gv cv old h Hgv Hcv (Hok lg gv eq_refl Hgv) Hold)
      as (root & h1 & _ & Hadd & _).
    eexists. exact Hadd.
Qed.

Lemma Add_nil_witness :
  (∀ l : loc, Some 1%positive = Some l → is_Some (graphs sample_heap !! l)) ∧
  (∀ l : loc, @None loc = Some l → is_Some (cells sample_heap !! l)) ∧
  (∀ (l : loc) (gv : GraphModel.t),
     Some 1%positive = Some l → graphs sample_heap !! l = Some gv →
     slice_ok sample_heap (GraphModel.Root gv)) ∧
  Add (Some 1%positive) None sample_heap = Panics NilDereference.
Proof.
  assert (∀ l : loc,
            Some 1%positive = Some l → is_Some (graphs sample_heap !! l))
    as Hg by (intros l [= <-]; by eexists).
  assert (∀ l : loc, @None loc = Some l → is_Some (cells sample_heap !! l))
    as Hc by (intros l [=]).
  assert (∀ (l : loc) (gv : GraphModel.t),
            Some 1%positive = Some l → graphs sample_heap !! l = Some gv →
            slice_ok sample_heap (GraphModel.Root gv)) as Hok.
  { intros l gv [= <-] [= <-]. exact sample_heap_slice_ok. }
  split; [exact Hg |]. split; [exact Hc |]. split; [exact Hok |].
  exact (proj1 (Add_nil (Some 1%positive) None sample_heap Hg Hc Hok)
           (or_intror eq_refl)).
Defined.

Lemma image_heap_slice_ok :
  slice_ok image_heap (GraphModel.Root (graph_with_root Slice.zero)).
Proof. split; simpl; lia. Qed.

Lemma Add_copy_is_shallow_witness :
  graphs image_heap !! 1%positive = Some (graph_with_root Slice.zero) ∧
  cells image_heap !! 1%positive =
    Some (Cell.set_Style {| Style.Attributes := Some 1%positive |}
            (shape_cell "n1" "1" (Some 1%positive))) ∧
  slice_ok image_heap (GraphModel.Root (graph_with_root Slice.zero)) ∧
  geometries image_heap !! 1%positive = Some default_geometry ∧
  ∃ h' h'' : heap,
    Add (Some 1%positive) (Some 1%positive) image_heap =
      Returns (Some 1%positive, h') ∧
    assign_Geometry (Some 1%positive) (Geometry.set_X 40) h' =
      Returns ((), h'') ∧
    geometries h'' !! 1%positive = Some (Geometry.set_X 40 default_geometry).
Proof.
  split; [reflexivity |]. split; [reflexivity |].
  split; [exact image_heap_slice_ok |]. split; [reflexivity |].
  destruct (Add_copy_is_shallow 1%positive 1%positive 1%positive
              (graph_with_root Slice.zero)
              (Cell.set_Style {| Style.Attributes := Some 1%positive |}
                 (shape_cell "n1" "1" (Some 1%positive)))
              default_geometry (Geometry.set_X 40) image_heap
              eq_refl eq_refl image_heap_slice_ok eq_refl eq_refl)
    as (h' & h'' & Hadd & Hassign & _ & Hgeo).
  exists h', h''. split; [exact Hadd |]. split; [exact Hassign |]. exact Hgeo.
Defined.

(** X14: the copy [Add] stores has the style map of the original: an
    entry assigned in the map of the original cell's style after the call
    is an entry of the style of the stored copy. *)
Theorem Add_copy_shares_style_map (g c l : loc) (gv : GraphModel.t)
    (cv : Cell.t) (mp : gmap string string) (k v : string) (h : heap) :
  graphs h !! g = Some gv →
  cells h !! c = Some cv →
  slice_ok h (GraphModel.Root gv) →
  Style.Attributes (Cell.Style cv) = Some l →
  maps h !! l = Some mp →
  ∃ (h' h'' : heap) (gv' : GraphModel.t) (copy : Cell.t),
    Add (Some g) (Some c) h = Returns (Some g, h') ∧
    map_assign (Style.Attributes (Cell.Style cv)) k v h' = Returns ((), h'') ∧
    graphs h'' !! g = Some gv' ∧
    slice_elems h'' (GraphModel.Root gv') ≫= last = Some copy ∧
    style_entries h' (Cell.Style copy) = Some mp ∧
    style_entries h'' (Cell.Style copy) = Some (<[k := v]> mp).
Proof.
  intros Hg Hc Hok Hl Hmp.
  destruct (slice_ok_elems h _ Hok) as [old Hold].
  destruct (Add_run g c gv cv old h Hg Hc Hok Hold)
    as (root & h1 & _ & Hadd & Helems & _ & _ & Hh1 & _).
  assert (maps h1 = maps h) as Hmaps by (by rewrite Hh1).
  eexists _, _, _, cv.
  split; [exact Hadd |].
  rewrite Hl. split.
  { erewrite map_assign_run; [done |]. simpl. by rewrite Hmaps. }
  simpl. split; [apply lookup_insert_eq |].
  split.
  { change (slice_elems h1 root ≫= last = Some cv).
    rewrite Helems. simpl. apply last_snoc. }
  unfold style_entries. rewrite Hl. simpl. rewrite Hmaps.
  split; [done | apply lookup_insert_eq].
Qed.

Lemma Add_copy_shares_style_map_witness :
  graphs image_heap !! 1%positive = Some (graph_with_root Slice.zero) ∧
  cells image_heap !! 1%positive =
    Some (Cell.set_Style {| Style.Attributes := Some 1%positive |}
            (shape_cell "n1" "1" (Some 1%positive))) ∧
  slice_ok image_heap (GraphModel.Root (graph_with_root Slice.zero)) ∧
  maps image_heap !! 1%positive = Some (image_style "u") ∧
  ∃ (h' h'' : heap),
    Add (Some 1%positive) (Some 1%positive) image_heap =
      Returns (Some 1%positive, h') ∧
    map_assign (Some 1%positive) "rounded" "1" h' = Returns ((), h'').
Proof.
  split; [reflexivity |]. split; [reflexivity |].
  split; [exact image_heap_slice_ok |]. split; [reflexivity |].
  destruct (Add_copy_shares_style_map 1%positive 1%positive 1%positive
              (graph_with_root Slice.zero)
              (Cell.set_Style {| Style.Attributes := Some 1%positive |}
                 (shape_cell "n1" "1" (Some 1%positive)))
              (image_style "u") "rounded" "1" image_heap
              eq_refl eq_refl image_heap_slice_ok eq_refl eq_refl)
    as (h' & h'' & gv' & copy & Hadd & Hassign & _).
  exists h', h''. split; [exact Hadd | exact Hassign].
Defined.

Lemma append_in_place (s : Slice.t) (x : Cell.t) (l : loc)
    (arr : list Cell.t) (h : heap) :
  Slice.array s = Some l →
  arrays h !! l = Some arr →
  (Slice.len s < Slice.cap s)%nat →
  (Slice.off s + Slice.cap s ≤ length arr)%nat →
  append s x h =
  Returns ({| Slice.array := Some l; Slice.off := Slice.off s;
              Slice.len := S (Slice.len s); Slice.cap := Slice.cap s |},
           with_arrays
             (<[l := <[(Slice.off s + Slice.len s)%nat := x]> arr]> (arrays h))
             h).
Proof.
  intros Harray Harr Hroom Hcap. unfold append.
  rewrite decide_True by done. rewrite Harray, Harr.
  by rewrite decide_True by lia.
Qed.

Lemma Add_in_place (g c l : loc) (gv : GraphModel.t) (cv : Cell.t)
    (arr : list Cell.t) (h : heap) :
  graphs h !! g = Some gv →
  cells h !! c = Some cv →
  Slice.array (GraphModel.Root gv) = Some l →
  arrays h !! l = Some arr →
  (Slice.len (GraphModel.Root gv) < Slice.cap (GraphModel.Root gv))%nat →
  (Slice.off (GraphModel.Root gv) + Slice.cap (GraphModel.Root gv) ≤
   length arr)%nat →
  Add (Some g) (Some c) h =
  Returns (Some g,
           with_graphs
             (<[g := GraphModel.set_Root
                       {| Slice.array := Some l;
                          Slice.off := Slice.off (GraphModel.Root gv);
                          Slice.len := S (Slice.len (GraphModel.Root gv));
                          Slice.cap := Slice.cap (GraphModel.Root gv) |} gv]>
                (graphs h))
             (with_arrays
                (<[l := <[(Slice.off (GraphModel.Root gv) +
                           Slice.len (GraphModel.Root gv))%nat := cv]> arr]>
                   (arrays h)) h)).
Proof.
  intros Hg Hc Harray Harr Hroom Hcap. unfold Add.
  erewrite bind_Returns; [| by apply deref_run].
  erewrite bind_Returns; [| by apply deref_run].
  erewrite bind_Returns; [| by apply append_in_place].
  erewrite bind_Returns; [| by eapply store_GraphModel_run].
  reflexivity.
Qed.

(** X18: graph models that are copies of one another share the array
    behind their cells.  When that array has room, [Add] on one of them
    writes the cell into the slot [Add] on the other one wrote to: after
    [g2.Add(b)] and then [g1.Add(a)], the last cell of [g2] is a copy of
    [a], no longer of [b]. *)
Theorem Add_shared_array (g1 g2 a b : loc) (gv1 gv2 : GraphModel.t)
    (av bv : Cell.t) (old : list Cell.t) (h : heap) :
  g1 ≠ g2 →
  graphs h !! g1 = Some gv1 →
  graphs h !! g2 = Some gv2 →
  GraphModel.Root gv2 = GraphModel.Root gv1 →
  slice_ok h (GraphModel.Root gv1) →
  (Slice.len (GraphModel.Root gv1) < Slice.cap (GraphModel.Root gv1))%nat →
  slice_elems h (GraphModel.Root gv1) = Some old →
  cells h !! a = Some av →
  cells h !! b = Some bv →
  ∃ (h1 h2 : heap) (gv1' gv2' : GraphModel.t),
    Add (Some g2) (Some b) h = Returns (Some g2, h1) ∧
    graphs h1 !! g2 = Some gv2' ∧
    slice_elems h1 (GraphModel.Root gv2') = Some (old ++ [bv]) ∧
    Add (Some g1) (Some a) h1 = Returns (Some g1, h2) ∧
    graphs h2 !! g1 = Some gv1' ∧
    slice_elems h2 (GraphModel.Root gv1') = Some (old ++ [av]) ∧
    graphs h2 !! g2 = Some gv2' ∧
    slice_elems h2 (GraphModel.Root gv2') = Some (old ++ [av]).
Proof.
  intros Hne Hg1 Hg2 Hroot [Hlen Hok] Hroom Hold Ha Hb.
  destruct (Slice.array (GraphModel.Root gv1)) as [l|] eqn:Harray; [| lia].
  destruct Hok as (arr & Harr & Hcap).
  assert (old = take (Slice.len (GraphModel.Root gv1))
                  (drop (Slice.off (GraphModel.Root gv1)) arr)) as ->.
  { unfold slice_elems in Hold. rewrite Harray, Harr in Hold.
    rewrite decide_True in Hold by lia. by injection Hold. }
  eexists _, _, _, _.
  split.
  { apply Add_in_place with (arr := arr); rewrite ?Hroot; done. }
  rewrite Hroot. simpl.
  split; [apply lookup_insert_eq |].
  split.
  { unfold slice_elems. simpl. rewrite lookup_insert_eq, length_insert.
    rewrite decide_True by lia. by rewrite take_drop_insert by lia. }
  split.
  { apply Add_in_place with (arr := <[(Slice.off (GraphModel.Root gv1) +
                                       Slice.len (GraphModel.Root gv1))%nat := bv]> arr).
    - simpl. by rewrite lookup_insert_ne.
    - done.
    - done.
    - simpl. apply lookup_insert_eq.
    - done.
    - rewrite length_insert. done. }
  simpl. rewrite insert_insert_eq, list_insert_insert_eq.
  split; [apply lookup_insert_eq |].
  split.
  { unfold slice_elems. simpl. rewrite lookup_insert_eq, length_insert.
    rewrite decide_True by lia. by rewrite take_drop_insert by lia. }
  split; [rewrite lookup_insert_ne by done; apply lookup_insert_eq |].
  unfold slice_elems. simpl. rewrite lookup_insert_eq, length_insert.
  rewrite decide_True by lia. by rewrite take_drop_insert by lia.
Qed.

Lemma Add_shared_array_witness :
  (1 ≠ 2)%positive ∧
  graphs shared_heap !! 1%positive =
    Some (graph_with_root (slice_of 1%positive 3 4)) ∧
  graphs shared_heap !! 2%positive =
    Some (graph_with_root (slice_of 1%positive 3 4)) ∧
  slice_ok shared_heap (slice_of 1%positive 3 4) ∧
  (3 < 4)%nat ∧
  slice_elems shared_heap (slice_of 1%positive 3 4) =
    Some [plain_cell "0" "" Style.zero; plain_cell "1" "0" Style.zero;
          plain_cell "x" "1" Style.zero] ∧
  cells shared_heap !! 1%positive = Some (plain_cell "a" "1" Style.zero) ∧
  cells shared_heap !! 2%positive = Some (plain_cell "b" "1" Style.zero) ∧
  ∃ (h1 h2 : heap) (gv2' : GraphModel.t),
    Add (Some 2%positive) (Some 2%positive) shared_heap =
      Returns (Some 2%positive, h1) ∧
    Add (Some 1%positive) (Some 1%positive) h1 =
      Returns (Some 1%positive, h2) ∧
    graphs h2 !! 2%positive = Some gv2' ∧
    slice_elems h2 (GraphModel.Root gv2') =
      Some ([plain_cell "0" "" Style.zero; plain_cell "1" "0" Style.zero;
             plain_cell "x" "1" Style.zero] ++
            [plain_cell "a" "1" Style.zero]).
Proof.
  assert ((1 ≠ 2)%positive) as Hne by discriminate.
  assert (slice_ok shared_heap (slice_of 1%positive 3 4)) as Hok.
  { split; [simpl; lia |]. simpl. eexists. split; [reflexivity |].
    simpl. lia. }
  assert ((3 < 4)%nat) as Hroom by lia.
  destruct (Add_shared_array 1%positive 2%positive 1%positive 2%positive
              (graph_with_root (slice_of 1%positive 3 4))
              (graph_with_root (slice_of 1%positive 3 4))
              (plain_cell "a" "1" Style.zero) (plain_cell "b" "1" Style.zero)
              [plain_cell "0" "" Style.zero; plain_cell "1" "0" Style.zero;
               plain_cell "x" "1" Style.zero]
              shared_heap Hne eq_refl eq_refl eq_refl Hok Hroom eq_refl
              eq_refl eq_refl)
    as (h1 & h2 & gv1' & gv2' & Hadd2 & _ & _ & Hadd1 & _ & _ & Hg2 & Helems).
  split; [exact Hne |]. do 2 (split; [reflexivity |]).
  split; [exact Hok |]. split; [exact Hroom |].
  do 3 (split; [reflexivity |]).
  exists h1, h2, gv2'. split; [exact Hadd2 |]. split; [exact Hadd1 |].
  split; [exact Hg2 | exact Helems].
Defined.

(** ** More on the builders *)

(** X15: the two cells of [NewGraph] have one style map between them: an
    entry assigned through the style of the first cell is an entry of the
    style of the second. *)
Theorem NewGraph_cells_share_style_map (k v : string) (h : heap) :
  ∃ (g : GraphModel.t) (h' h'' : heap) (c0 c1 : Cell.t),
    NewGraph h = Returns (g, h') ∧
    slice_elems h' (GraphModel.Root g) = Some [c0; c1] ∧
    map_assign (Style.Attributes (Cell.Style c0)) k v h' = Returns ((), h'') ∧
    slice_elems h'' (GraphModel.Root g) = Some [c0; c1] ∧
    style_entries h'' (Cell.Style c0) = Some (<[k := v]> {[ "html" := "1" ]}) ∧
    style_entries h'' (Cell.Style c1) = Some (<[k := v]> {[ "html" := "1" ]}).
Proof.
  eexists _, _, _, _, _.
  split; [apply NewGraph_run |].
  split; [apply (slice_elems_alloc _ _ [_; _]), lookup_insert_eq |].
  split.
  { apply map_assign_run. simpl. apply lookup_insert_eq. }
  split; [apply (slice_elems_alloc _ _ [_; _]), lookup_insert_eq |].
  unfold style_entries. simpl. rewrite !insert_insert_eq.
  split; apply lookup_insert_eq.
Qed.

(** X16: two calls of [NewImage] share nothing: they return different
    cells, whose geometries are different objects and whose styles point
    to different maps, and the second call leaves what the first one built
    as it was. *)
Theorem NewImage_twice_disjoint (id1 layer1 url1 id2 layer2 url2 : string)
    (h : heap) :
  ∃ (p1 p2 g1 g2 m1 m2 : loc) (h1 h2 : heap) (c1 c2 : Cell.t),
    NewImage id1 layer1 url1 h = Returns (Some p1, h1) ∧
    NewImage id2 layer2 url2 h1 = Returns (Some p2, h2) ∧
    p1 ≠ p2 ∧ g1 ≠ g2 ∧ m1 ≠ m2 ∧
    cells h1 !! p1 = Some c1 ∧
    cells h2 !! p1 = Some c1 ∧
    cells h2 !! p2 = Some c2 ∧
    Cell.ID c1 = id1 ∧ Cell.ParentID c1 = layer1 ∧
    Cell.ID c2 = id2 ∧ Cell.ParentID c2 = layer2 ∧
    Cell.Geometry c1 = Some g1 ∧
    Cell.Geometry c2 = Some g2 ∧
    Style.Attributes (Cell.Style c1) = Some m1 ∧
    Style.Attributes (Cell.Style c2) = Some m2 ∧
    geometries h1 !! g1 = Some default_geometry ∧
    geometries h2 !! g1 = Some default_geometry ∧
    geometries h2 !! g2 = Some default_geometry ∧
    style_entries h1 (Cell.Style c1) = Some (image_style url1) ∧
    style_entries h2 (Cell.Style c1) = Some (image_style url1) ∧
    style_entries h2 (Cell.Style c2) = Some (image_style url2).
Proof.
  eexists _, _, _, _, _, _, _, _, _, _.
  split; [apply NewImage_run |].
  split; [apply NewImage_run |]. simpl.
  assert (∀ {A} (x : A) (s : gmap loc A),
            fresh (dom s) ≠ fresh (dom (<[fresh (dom s) := x]> s))) as Hfresh.
  { intros A x s Heq.
    apply (is_fresh (dom (<[fresh (dom s) := x]> s))).
    rewrite <- Heq. apply elem_of_dom. rewrite lookup_insert_eq. by eexists. }
  split; [apply Hfresh |]. split; [apply Hfresh |]. split; [apply Hfresh |].
  split; [apply lookup_insert_eq |].
  split; [rewrite lookup_insert_ne by (apply not_eq_sym, Hfresh);
          apply lookup_insert_eq |].
  split; [apply lookup_insert_eq |].
  do 8 (split; [reflexivity |]).
  split; [apply lookup_insert_eq |].
  split; [rewrite lookup_insert_ne by (apply not_eq_sym, Hfresh);
          apply lookup_insert_eq |].
  split; [apply lookup_insert_eq |].
  unfold style_entries. simpl.
  split; [apply lookup_insert_eq |].
  split; [rewrite lookup_insert_ne by (apply not_eq_sym, Hfresh);
          apply lookup_insert_eq |].
  apply lookup_insert_eq.
Qed.

(** X17: [NewImageXY] changes no object of the heap it is called in: it
    adds one cell, one geometry and one map at addresses that were free,
    and leaves every cell, geometry, map, point, array and graph model
    that existed as it was. *)
Theorem NewImageXY_frame (id parentId url : string) (x y : Z) (h : heap) :
  ∃ (p g m : loc) (h' : heap),
    NewImageXY id parentId url x y h = Returns (Some p, h') ∧
    cells h !! p = None ∧
    geometries h !! g = None ∧
    maps h !! m = None ∧
    dom (cells h') = {[ p ]} ∪ dom (cells h) ∧
    dom (geometries h') = {[ g ]} ∪ dom (geometries h) ∧
    dom (maps h') = {[ m ]} ∪ dom (maps h) ∧
    cells h ⊆ cells h' ∧
    geometries h ⊆ geometries h' ∧
    maps h ⊆ maps h' ∧
    points h' = points h ∧
    graphs h' = graphs h ∧
    arrays h' = arrays h.
Proof.
  eexists _, _, _, _.
  split; [apply NewImageXY_run |]. simpl.
  assert (∀ {A} (s : gmap loc A), s !! fresh (dom s) = None) as Hfresh
    by (intros A s; apply not_elem_of_dom, is_fresh).
  do 3 (split; [apply Hfresh |]).
  do 3 (split; [apply dom_insert_L |]).
  do 3 (split; [apply insert_subseteq, Hfresh |]).
  repeat split.
Qed.

(** ** Runs on the inputs the specification names *)

Example NewShape_n1 :
  NewShape "n1" "1" empty_heap =
  Returns (Some 1%positive,
           {| maps := ∅; points := ∅;
              geometries := {[ 1%positive := default_geometry ]};
              cells := {[ 1%positive := shape_cell "n1" "1" (Some 1%positive) ]};
              arrays := ∅; graphs := ∅; growslice := double_growslice |}).
Proof. vm_compute. reflexivity. Qed.

Example NewImage_n1 :
  NewImage "n1" "1" "http://x/img.png" empty_heap =
  Returns (Some 1%positive,
           {| maps := {[ 1%positive := image_style "http://x/img.png" ]};
              points := ∅;
              geometries := {[ 1%positive := default_geometry ]};
              cells :=
                {[ 1%positive :=
                     Cell.set_Style {| Style.Attributes := Some 1%positive |}
                       (shape_cell "n1" "1" (Some 1%positive)) ]};
              arrays := ∅; graphs := ∅; growslice := double_growslice |}).
Proof. vm_compute. reflexivity. Qed.

Example NewImageXY_5_7 :
  NewImageXY "n1" "1" "http://x/img.png" 5 7 empty_heap =
  Returns (Some 1%positive,
           {| maps := {[ 1%positive := image_style "http://x/img.png" ]};
              points := ∅;
              geometries :=
                {[ 1%positive := Geometry.set_X 7 default_geometry ]};
              cells :=
                {[ 1%positive :=
                     Cell.set_Style {| Style.Attributes := Some 1%positive |}
                       (shape_cell "n1" "1" (Some 1%positive)) ]};
              arrays := ∅; graphs := ∅; growslice := double_growslice |}).
Proof. vm_compute. reflexivity. Qed.

Example Add_then_change_value :
  (Add (Some 1%positive) (Some 2%positive) ;;
   assign_Cell (Some 2%positive) (Cell.set_Value "changed")) sample_heap =
  Returns ((),
           {| maps := ∅; points := ∅; geometries := ∅;
              cells := {[ 2%positive := Cell.set_Value "changed" sample_cell ]};
              arrays :=
                {[ 1%positive := [plain_cell "0" "" Style.zero;
                                  plain_cell "1" "0" Style.zero];
                   2%positive := [plain_cell "0" "" Style.zero;
                                  plain_cell "1" "0" Style.zero;
                                  sample_cell; Cell.zero] ]};
              graphs :=
                {[ 1%positive := graph_with_root (slice_of 2%positive 3 4) ]};
              growslice := double_growslice |}).
Proof. vm_compute. reflexivity. Qed.

Example Add_twice_on_copies :
  (Add (Some 2%positive) (Some 2%positive) ;;
   Add (Some 1%positive) (Some 1%positive)) shared_heap =
  Returns (Some 1%positive,
           {| maps := ∅; points := ∅; geometries := ∅;
              cells := cells shared_heap;
              arrays :=
                {[ 1%positive := [plain_cell "0" "" Style.zero;
                                  plain_cell "1" "0" Style.zero;
                                  plain_cell "x" "1" Style.zero;
                                  plain_cell "a" "1" Style.zero] ]};
              graphs :=
                {[ 1%positive := graph_with_root (slice_of 1%positive 4 4);
                   2%positive := graph_with_root (slice_of 1%positive 4 4) ]};
              growslice := double_growslice |}).
Proof. vm_compute. reflexivity. Qed.

Example MarshalXMLAttr_loop_in_order :
  MarshalXMLAttr_loop [("fillColor", "#fff"); ("rounded", "1"); ("dashed", "")] =
  "fillColor=#fff;rounded=1;dashed;".
Proof. reflexivity. Qed.

Example Split_trailing : Split "a=1;b=2;" ";" = ["a=1"; "b=2"; ""].
Proof. reflexivity. Qed.

Example Split_empty : Split "" ";" = [""].
Proof. reflexivity. Qed.

Example Split_equals : Split "a=b=c" "=" = ["a"; "b"; "c"].
Proof. reflexivity. Qed.
